(** * Header-guard check of clang-tidy: the preprocessor callbacks of
    [clang-tidy/utils/HeaderGuard.cpp], embedded as Rocq functions.

    The callbacks record files, [#ifndef]s, macro definitions and [#endif]s
    while a translation unit is preprocessed; [EndOfMainFile] joins them,
    emits diagnostics with fix-its and clears the four containers. *)

From Stdlib Require Import NArith Ascii String List Bool Lia.
From stdpp Require Import gmap strings list fin_maps.

Local Open Scope string_scope.

(** ** llvm::StringRef *)

Module StringRef.

(** [StringRef::endswith]: the suffix is not longer than the string and the
    last [size(Suffix)] characters are the suffix. *)
Definition endswith (Str Suffix : string) : bool :=
  (String.length Suffix <=? String.length Str)%nat
  && String.eqb
       (substring (String.length Str - String.length Suffix)
                  (String.length Suffix) Str)
       Suffix.

(** [StringRef::empty]. *)
Definition empty (Str : string) : bool :=
  match Str with EmptyString => true | String _ _ => false end.

End StringRef.

(** ** llvm::sys::path (POSIX flavour)

    [cleanPath] walks a path with [llvm::sys::path::begin]/[end] and shortens
    its result with [llvm::sys::path::parent_path].  Both belong to LLVM's
    support library; they are modelled here after the iteration that
    [llvm/Support/Path.h] documents:
<<
      /          => /
      /foo       => /,foo
      foo/       => foo,.
      /foo/bar   => /,foo,bar
      ../        => ..,.
      //net/foo  => //net,/,foo
>>
    The only separator is ['/']. *)

Module path.

Definition is_separator (c : ascii) : bool := Ascii.eqb c "/".

(** The components that follow a file or directory name.  [in_name cur s]
    is in the middle of a name, [cur] being what was read of it so far;
    [after_sep s] has just passed the separators that end a name: further
    separators are skipped, and a path that ends there yields ["."]. *)
Fixpoint in_name (cur s : string) {struct s} : list string :=
  match s with
  | EmptyString => [cur]
  | String c s' =>
      if is_separator c then cur :: after_sep s'
      else in_name (cur +:+ String c EmptyString) s'
  end
with after_sep (s : string) {struct s} : list string :=
  match s with
  | EmptyString => ["."]
  | String c s' =>
      if is_separator c then after_sep s'
      else in_name (String c EmptyString) s'
  end.

(** The components that follow the root directory ["/"]. *)
Definition after_root (s : string) : list string :=
  match s with
  | EmptyString => []
  | String c s' =>
      if is_separator c then after_sep s'
      else in_name (String c EmptyString) s'
  end.

(** A network name [//net] runs to the next separator; that separator is
    the root directory and a component of its own. *)
Fixpoint net_name (cur s : string) {struct s} : list string :=
  match s with
  | EmptyString => [cur]
  | String c s' =>
      if is_separator c then cur :: "/" :: after_root s'
      else net_name (cur +:+ String c EmptyString) s'
  end.

(** The sequence [*I] for [I] from [begin(Path)] to [end(Path)]. *)
Definition components (Path : string) : list string :=
  match Path with
  | EmptyString => []
  | String c0 r0 =>
      if is_separator c0 then
        match r0 with
        | String c1 (String c2 r2) =>
            if is_separator c1 && negb (is_separator c2)
            then net_name (String c0 (String c1 (String c2 EmptyString))) r2
            else "/" :: after_root r0
        | _ => "/" :: after_root r0
        end
      else in_name (String c0 EmptyString) r0
  end.

(** [size_t] positions; [None] is [StringRef::npos]. *)
Definition at_sep (str : string) (i : nat) : bool :=
  match String.get i str with
  | Some c => is_separator c
  | None => false
  end.

(** [str.find_first_of('/', from)]. *)
Fixpoint find_first_of (str : string) (from : nat) : option nat :=
  match str with
  | EmptyString => None
  | String c s' =>
      match from with
      | O => if is_separator c then Some 0
             else option_map S (find_first_of s' 0)
      | S n => option_map S (find_first_of s' n)
      end
  end.

(** [str.find_last_of('/')]. *)
Fixpoint find_last_of (str : string) : option nat :=
  match str with
  | EmptyString => None
  | String c s' =>
      match find_last_of s' with
      | Some p => Some (S p)
      | None => if is_separator c then Some 0 else None
      end
  end.

Definition double_sep (str : string) : bool :=
  at_sep str 0 && at_sep str 1.

Definition filename_pos (str : string) : nat :=
  let n := String.length str in
  if (n =? 2)%nat && double_sep str then 0
  else if (0 <? n)%nat && at_sep str (n - 1) then n - 1
  else match find_last_of str with
       | None => 0
       | Some pos => if (pos =? 1)%nat && at_sep str 0 then 0 else pos + 1
       end.

Definition root_dir_start (str : string) : option nat :=
  let n := String.length str in
  if (n =? 2)%nat && double_sep str then None
  else if (3 <? n)%nat && double_sep str && negb (at_sep str 2)
       then find_first_of str 2
  else if (0 <? n)%nat && at_sep str 0 then Some 0
  else None.

(** The loop of [parent_path_end] that steps back over separators, but not
    over the root directory. *)
Fixpoint skip_back (path : string) (root_dir_pos : option nat)
         (end_pos : nat) : nat :=
  match end_pos with
  | O => 0
  | S e =>
      if negb (bool_decide (Some e = root_dir_pos)) && at_sep path e
      then skip_back path root_dir_pos e
      else end_pos
  end.

Definition parent_path_end (path : string) : option nat :=
  let end_pos := filename_pos path in
  let filename_was_sep :=
    (0 <? String.length path)%nat && at_sep path end_pos in
  let root_dir_pos := root_dir_start (substring 0 end_pos path) in
  let end_pos := skip_back path root_dir_pos end_pos in
  if (end_pos =? 1)%nat && bool_decide (root_dir_pos = Some 0)
     && filename_was_sep
  then None
  else Some end_pos.

Definition parent_path (path : string) : string :=
  match parent_path_end path with
  | None => EmptyString
  | Some end_pos => substring 0 end_pos path
  end.

End path.

(** ** cleanPath *)

(** One round of the loop of [cleanPath]: [I] is the component [*I]. *)
Definition cleanPath_step (NewPath I : string) : string :=
  if String.eqb I "." then NewPath
  else if String.eqb I ".." then
    (* NewPath.resize(parent_path(NewPath).size()) *)
    substring 0 (String.length (path.parent_path NewPath)) NewPath
  else
    (if StringRef.empty NewPath then NewPath else NewPath +:+ "/") +:+ I.

Definition cleanPath (Path : string) : string :=
  fold_left cleanPath_step (path.components Path) EmptyString.

(** ** The clang types the callbacks use *)

(** A [SourceLocation] is its raw 32-bit encoding; [SourceLocation()] has
    the encoding 0 and is the only invalid one. *)
Abbreviation SourceLocation := N (only parsing).
Abbreviation FileID := Z (only parsing).

Definition isValid (L : SourceLocation) : bool := negb (L =? 0)%N.
Definition isInvalid (L : SourceLocation) : bool := (L =? 0)%N.
Definition getLocWithOffset (L : SourceLocation) (Offset : nat)
  : SourceLocation :=
  ((L + N.of_nat Offset) mod 2 ^ 32)%N.

Module FileEntry.
Record t := mk { getName : string; getUID : nat }.
End FileEntry.

(** Identifiers are interned by the preprocessor: two [IdentifierInfo]
    pointers are equal exactly when they spell the same name, so a pointer
    is modelled by the name it points to. *)
Module IdentifierInfo.
Record t := mk { getName : string }.

#[global] Instance eq_dec : EqDecision t.
Proof. solve_decision. Defined.

#[global] Instance countable : Countable t.
Proof.
  apply (inj_countable' getName mk). intros []; reflexivity.
Defined.
End IdentifierInfo.

Record Token := mkToken {
  getIdentifierInfo : IdentifierInfo.t;
  getLocation : SourceLocation
}.

(** [isUsedForHeaderGuard] is set by the preprocessor when it leaves the
    file; the callbacks read it through the pointer at the end of the main
    file, and the record holds the value it has then. *)
Record MacroInfo := mkMacroInfo {
  isUsedForHeaderGuard : bool;
  getDefinitionLoc : SourceLocation
}.

Record MacroDirective := mkMacroDirective { getMacroInfo : MacroInfo }.

Record CharSourceRange := mkRange {
  getBegin : SourceLocation;
  getEnd : SourceLocation;
  isTokenRange : bool
}.

Definition getTokenRange (B E : SourceLocation) : CharSourceRange :=
  mkRange B E true.
Definition getCharRange (B E : SourceLocation) : CharSourceRange :=
  mkRange B E false.

Record FixItHint := mkFixIt {
  RemoveRange : CharSourceRange;
  CodeToInsert : string
}.

Definition CreateInsertion (InsertionLoc : SourceLocation) (Code : string)
  : FixItHint :=
  mkFixIt (getCharRange InsertionLoc InsertionLoc) Code.
Definition CreateReplacement (R : CharSourceRange) (Code : string)
  : FixItHint :=
  mkFixIt R Code.

(** What [Check->diag(Loc, Message) << FixIt << ...] hands over. *)
Record Diagnostic := mkDiag {
  DiagLoc : SourceLocation;
  Message : string;
  FixIts : list FixItHint
}.

Inductive FileChangeReason :=
  EnterFile | ExitFile | SystemHeaderPragma | RenameFile.
Inductive CharacteristicKind := C_User | C_System | C_ExternCSystem.

(** The part of the [SourceManager] the callbacks call.  A null
    [const FileEntry *] is [None].  [getCharacterData] always returns a
    pointer to a C string (for a location without a buffer, to a
    placeholder text), so it is total. *)
Record SourceManager := mkSM {
  getFileID : SourceLocation -> FileID;
  getFileEntryForID : FileID -> option FileEntry.t;
  translateFile : FileEntry.t -> FileID;
  getLocForStartOfFile : FileID -> SourceLocation;
  getLocForEndOfFile : FileID -> SourceLocation;
  isWrittenInSameFile : SourceLocation -> SourceLocation -> bool;
  getCharacterData : SourceLocation -> string
}.

(** The virtual methods of [HeaderGuardCheck] the callbacks call through
    [Check].  [getHeaderGuard] is pure virtual; its second argument is the
    guard found in the file, empty by default. *)
Record HeaderGuardCheck := mkCheck {
  getHeaderGuard : string -> string -> string;
  shouldSuggestEndifComment : string -> bool;
  shouldFixHeaderGuard : string -> bool;
  shouldSuggestToAddHeaderGuard : string -> bool
}.

(** The bodies [HeaderGuardCheck] itself gives to three of them. *)
Module Default.
Definition shouldSuggestEndifComment (FileName : string) : bool :=
  StringRef.endswith FileName ".h".
Definition shouldFixHeaderGuard (FileName : string) : bool := true.
Definition shouldSuggestToAddHeaderGuard (FileName : string) : bool :=
  StringRef.endswith FileName ".h".
End Default.

Definition baseCheck (getHeaderGuard : string -> string -> string)
  : HeaderGuardCheck :=
  mkCheck getHeaderGuard Default.shouldSuggestEndifComment
          Default.shouldFixHeaderGuard Default.shouldSuggestToAddHeaderGuard.

(** ** The state of [HeaderGuardPPCallbacks] *)

Record PPState := mkState {
  Macros : list (Token * MacroDirective);
  Files : gmap string FileEntry.t;
  Ifndefs : gmap IdentifierInfo.t (SourceLocation * SourceLocation);
  EndIfs : gmap N N
}.

Definition emptyState : PPState := mkState [] ∅ ∅ ∅.

Definition setMacros (v : list (Token * MacroDirective)) (st : PPState) :=
  mkState v (Files st) (Ifndefs st) (EndIfs st).
Definition setFiles (v : gmap string FileEntry.t) (st : PPState) :=
  mkState (Macros st) v (Ifndefs st) (EndIfs st).
Definition setIfndefs
  (v : gmap IdentifierInfo.t (SourceLocation * SourceLocation))
  (st : PPState) :=
  mkState (Macros st) (Files st) v (EndIfs st).
Definition setEndIfs (v : gmap N N) (st : PPState) :=
  mkState (Macros st) (Files st) (Ifndefs st) v.

(** ** Effects: state, emitted diagnostics, and the null dereference *)

Inductive Outcome (A : Type) :=
| Done (a : A)
| NullDereference.
Arguments Done {A} a.
Arguments NullDereference {A}.

Definition M (A : Type) : Type :=
  PPState -> Outcome (A * PPState * list Diagnostic).

Definition ret {A} (a : A) : M A := fun st => Done (a, st, []).

Definition bind {A B} (m : M A) (f : A -> M B) : M B :=
  fun st =>
    match m st with
    | Done (a, st1, d1) =>
        match f a st1 with
        | Done (b, st2, d2) => Done (b, st2, (d1 ++ d2)%list)
        | NullDereference => NullDereference
        end
    | NullDereference => NullDereference
    end.

Declare Scope pp_scope.
Delimit Scope pp_scope with pp.
Notation "'do' x <- m ; k" := (bind m (fun x => k))
  (at level 10, x name, m at level 100, k at level 200) : pp_scope.
Notation "m ';;' k" := (bind m (fun _ => k))
  (at level 100, k at level 200, right associativity) : pp_scope.
Local Open Scope pp_scope.

Definition get : M PPState := fun st => Done (st, st, []).
Definition modify (f : PPState -> PPState) : M unit :=
  fun st => Done (tt, f st, []).

(** [Check->diag(Loc, Message) << FixIts]. *)
Definition diag (Loc : SourceLocation) (Msg : string)
           (Hints : list FixItHint) : M unit :=
  fun st => Done (tt, st, [mkDiag Loc Msg Hints]).

(** [P->member] for a pointer that may be null. *)
Definition deref {A} (P : option A) : M A :=
  match P with
  | Some a => ret a
  | None => fun _ => NullDereference
  end.

(** A range-based [for] whose body may [continue]. *)
Fixpoint for_each {A} (l : list A) (body : A -> M unit) : M unit :=
  match l with
  | [] => ret tt
  | x :: l' => body x ;; for_each l' body
  end.

(** [Map[Key]] of [std::map]: a missing key is first inserted with a
    value-initialised value. *)
Definition subscript {K} `{Countable K} {V} (dflt : V) (m : gmap K V)
           (k : K) : V * gmap K V :=
  match m !! k with
  | Some v => (v, m)
  | None => (dflt, <[k := dflt]> m)
  end.

Definition Ifndefs_at (II : IdentifierInfo.t)
  : M (SourceLocation * SourceLocation) :=
  fun st =>
    let '(v, m) := subscript (0%N, 0%N) (Ifndefs st) II in
    Done (v, setIfndefs m st, []).

Definition EndIfs_at (IfLoc : SourceLocation) : M SourceLocation :=
  fun st =>
    let '(v, m) := subscript 0%N (EndIfs st) IfLoc in
    Done (v, setEndIfs m st, []).

(** [std::strcspn(Data, "\r\n")]: the length of the text before the first
    carriage return, line feed or the terminating NUL. *)
Fixpoint strcspn_crlf (Data : string) : nat :=
  match Data with
  | EmptyString => 0
  | String c s' =>
      if Ascii.eqb c "013" || Ascii.eqb c "010" || Ascii.eqb c "000"
      then 0 else S (strcspn_crlf s')
  end.

Definition LF : string := String "010" EmptyString.

Definition msgStyle : string :=
  "header guard does not follow preferred style".
Definition msgEndif : string :=
  "#endif for a header guard should reference the guard macro in a comment".
Definition msgNonTopmost : string :=
  "Header guard after code/includes. Consider moving it up.".
Definition msgMissing : string := "header is missing header guard".

(** ** The callbacks *)

(** The preprocessor events of one translation unit.  The [MacroDirective]
    of an [#ifndef] is null ([None]) when the macro is not defined; the one
    of a macro definition is never null. *)
Inductive PPEvent :=
| EvFileChanged (Loc : SourceLocation) (Reason : FileChangeReason)
                (FileType : CharacteristicKind) (PrevFID : FileID)
| EvIfndef (Loc : SourceLocation) (MacroNameTok : Token)
           (MD : option MacroDirective)
| EvMacroDefined (MacroNameTok : Token) (MD : MacroDirective)
| EvEndif (Loc IfLoc : SourceLocation).

Section Callbacks.

Variable SM : SourceManager.
Variable Check : HeaderGuardCheck.

Definition FileChanged (Loc : SourceLocation) (Reason : FileChangeReason)
           (FileType : CharacteristicKind) (PrevFID : FileID) : M unit :=
  match Reason, FileType with
  | EnterFile, C_User =>
      match getFileEntryForID SM (getFileID SM Loc) with
      | Some FE =>
          let FileName := cleanPath (FileEntry.getName FE) in
          modify (fun st => setFiles (<[FileName := FE]> (Files st)) st)
      | None => ret tt
      end
  | _, _ => ret tt
  end.

Definition Ifndef (Loc : SourceLocation) (MacroNameTok : Token)
           (MD : option MacroDirective) : M unit :=
  match MD with
  | Some _ => ret tt
  | None =>
      modify (fun st =>
        setIfndefs (<[getIdentifierInfo MacroNameTok :=
                        (Loc, getLocation MacroNameTok)]> (Ifndefs st)) st)
  end.

Definition MacroDefined (MacroNameTok : Token) (MD : MacroDirective)
  : M unit :=
  modify (fun st => setMacros (Macros st ++ [(MacroNameTok, MD)])%list st).

Definition Endif (Loc IfLoc : SourceLocation) : M unit :=
  modify (fun st => setEndIfs (<[IfLoc := Loc]> (EndIfs st)) st).

Definition checkHeaderGuardDefinition (Ifndef Define : SourceLocation)
           (FileName CurHeaderGuard : string) : M string :=
  let CPPVar := getHeaderGuard Check FileName CurHeaderGuard in
  let CPPVarUnder := CPPVar +:+ "_" in
  if isValid Ifndef && negb (String.eqb CurHeaderGuard CPPVar)
     && negb (String.eqb CurHeaderGuard CPPVarUnder)
  then
    diag Ifndef msgStyle
      [CreateReplacement
         (getTokenRange Ifndef
            (getLocWithOffset Ifndef (String.length CurHeaderGuard)))
         CPPVar;
       CreateReplacement
         (getTokenRange Define
            (getLocWithOffset Define (String.length CurHeaderGuard)))
         CPPVar] ;;
    ret CPPVar
  else ret CurHeaderGuard.

Definition checkEndifComment (EndIf : SourceLocation)
           (HeaderGuard : string) : M unit :=
  let EndIfData := getCharacterData SM EndIf in
  let EndIfLen := strcspn_crlf EndIfData in
  let EndIfStr := substring 0 EndIfLen EndIfData in
  if isValid EndIf
     && negb (StringRef.endswith EndIfStr ("// " +:+ HeaderGuard))
     && negb (StringRef.endswith EndIfStr ("/* " +:+ HeaderGuard +:+ " */"))
  then
    let Correct := "endif  // " +:+ HeaderGuard in
    diag EndIf msgEndif
      [CreateReplacement
         (getCharRange EndIf (getLocWithOffset EndIf EndIfLen)) Correct]
  else ret tt.

(** The test of the inner loop of [checkGuardlessHeaders]. *)
Definition namesGuardIn (CPPVar CPPVarUnder : string)
           (StartLoc : SourceLocation) (MacroEntry : Token * MacroDirective)
  : bool :=
  let Name := IdentifierInfo.getName (getIdentifierInfo MacroEntry.1) in
  let DefineLoc := getLocation MacroEntry.1 in
  (String.eqb Name CPPVar || String.eqb Name CPPVarUnder)
  && isWrittenInSameFile SM StartLoc DefineLoc.

(** The inner loop; its result is [SeenMacro]. *)
Fixpoint seekGuardMacro (l : list (Token * MacroDirective))
         (CPPVar CPPVarUnder : string) (StartLoc : SourceLocation)
  : M bool :=
  match l with
  | [] => ret false
  | MacroEntry :: l' =>
      if namesGuardIn CPPVar CPPVarUnder StartLoc MacroEntry then
        diag (getLocation MacroEntry.1) msgNonTopmost [] ;;
        ret true
      else seekGuardMacro l' CPPVar CPPVarUnder StartLoc
  end.

(** The body of the outer loop, for the entry [FE] of [Files]. *)
Definition guardlessHeader (FE : string * FileEntry.t) : M unit :=
  let FileName := FE.1 in
  if negb (shouldSuggestToAddHeaderGuard Check FileName) then ret tt else
  let FID := translateFile SM FE.2 in
  let StartLoc := getLocForStartOfFile SM FID in
  if isInvalid StartLoc then ret tt else
  let CPPVar := getHeaderGuard Check FileName "" in
  let CPPVarUnder := CPPVar +:+ "_" in
  do st <- get ;
  do SeenMacro <- seekGuardMacro (Macros st) CPPVar CPPVarUnder StartLoc ;
  if SeenMacro : bool then ret tt else
  diag StartLoc msgMissing
    [CreateInsertion StartLoc
       ("#ifndef " +:+ CPPVar +:+ LF +:+ "#define " +:+ CPPVar
        +:+ LF +:+ LF);
     CreateInsertion (getLocForEndOfFile SM FID)
       (if shouldSuggestEndifComment Check FileName
        then LF +:+ "#endif  // " +:+ CPPVar +:+ LF
        else LF +:+ "#endif" +:+ LF)].

(** [llvm::StringMap] is iterated in the order of its hash table. *)
Definition checkGuardlessHeaders : M unit :=
  do st <- get ;
  for_each (map_to_list (Files st)) guardlessHeader.

(** The body of the first loop of [EndOfMainFile]. *)
Definition visitMacro (MacroEntry : Token * MacroDirective) : M unit :=
  let MI := getMacroInfo MacroEntry.2 in
  if negb (isUsedForHeaderGuard MI) then ret tt else
  do FE <- deref (getFileEntryForID SM
                    (getFileID SM (getDefinitionLoc MI))) ;
  let FileName := cleanPath (FileEntry.getName FE) in
  modify (fun st => setFiles (delete FileName (Files st)) st) ;;
  if negb (shouldFixHeaderGuard Check FileName) then ret tt else
  do p <- Ifndefs_at (getIdentifierInfo MacroEntry.1) ;
  let Ifndef := p.2 in
  let Define := getLocation MacroEntry.1 in
  do q <- Ifndefs_at (getIdentifierInfo MacroEntry.1) ;
  do EndIf <- EndIfs_at q.1 ;
  let CurHeaderGuard :=
    IdentifierInfo.getName (getIdentifierInfo MacroEntry.1) in
  do NewGuard <-
    checkHeaderGuardDefinition Ifndef Define FileName CurHeaderGuard ;
  if shouldSuggestEndifComment Check FileName
  then checkEndifComment EndIf NewGuard
  else ret tt.

Definition clearAll : M unit :=
  modify (setMacros []) ;;
  modify (setFiles ∅) ;;
  modify (setIfndefs ∅) ;;
  modify (setEndIfs ∅).

Definition EndOfMainFile : M unit :=
  do st <- get ;
  for_each (Macros st) visitMacro ;;
  checkGuardlessHeaders ;;
  clearAll.

Definition handle (e : PPEvent) : M unit :=
  match e with
  | EvFileChanged Loc Reason FileType PrevFID =>
      FileChanged Loc Reason FileType PrevFID
  | EvIfndef Loc MacroNameTok MD => Ifndef Loc MacroNameTok MD
  | EvMacroDefined MacroNameTok MD => MacroDefined MacroNameTok MD
  | EvEndif Loc IfLoc => Endif Loc IfLoc
  end.

(** One translation unit: its events in order, then the end of the main
    file. *)
Definition translationUnit (events : list PPEvent) : M unit :=
  for_each events handle ;;
  EndOfMainFile.

End Callbacks.

(** ** Reading the diagnostics *)

(** The file entry [EndOfMainFile] looks up for a macro: the one of the file
    that holds the macro's definition location. *)
Definition guardFile (SM : SourceManager)
           (MacroEntry : Token * MacroDirective) : option FileEntry.t :=
  getFileEntryForID SM
    (getFileID SM (getDefinitionLoc (getMacroInfo MacroEntry.2))).

(** The diagnostics a computation emits from a state; none when it stops at
    a null pointer. *)
Definition emitted {A} (m : M A) (st : PPState) : list Diagnostic :=
  match m st with
  | Done (_, _, ds) => ds
  | NullDereference => []
  end.

(** The diagnostics of the naming check and of the [#endif] check. *)
Definition styleOrEndif (d : Diagnostic) : Prop :=
  Message d = msgStyle \/ Message d = msgEndif.

(** What [checkGuardlessHeaders] emits in the rounds of its loop that visit
    the key [FileName] of [Files]. *)
Definition reportedFor (SM : SourceManager) (Check : HeaderGuardCheck)
           (FileName : string) (st : PPState) : list Diagnostic :=
  flat_map (fun FE => emitted (guardlessHeader SM Check FE) st)
           (filter (fun FE => FE.1 = FileName) (map_to_list (Files st))).


(** A stream that enters no file but the main file, whose [FileID] is
    [MainFID]. *)
Definition entersOnlyMainFile (SM : SourceManager) (MainFID : FileID)
           (events : list PPEvent) : Prop :=
  forall Loc FileType PrevFID,
    EvFileChanged Loc EnterFile FileType PrevFID ∈ events ->
    getFileID SM Loc = MainFID.

(** ** A small translation unit

    Two headers, [include/foo/./bar.h] (file 1) and [src/solo.h] (file 2),
    and a source file [src/main.cpp] (file 3); the locations of file [n]
    are [1000 n] to [1000 n + 999].  [bar.h] is guarded by [BAR_H], and its
    [#endif] carries no comment. *)

Module Demo.

Definition bar_h : FileEntry.t := FileEntry.mk "include/foo/./bar.h" 1.
Definition solo_h : FileEntry.t := FileEntry.mk "src/solo.h" 2.
Definition main_cpp : FileEntry.t := FileEntry.mk "src/main.cpp" 3.

Definition SM : SourceManager :=
  mkSM (fun Loc => Z.of_N (Loc / 1000))
       (fun FID => if (FID =? 1)%Z then Some bar_h
                   else if (FID =? 2)%Z then Some solo_h
                   else if (FID =? 3)%Z then Some main_cpp else None)
       (fun FE => Z.of_nat (FileEntry.getUID FE))
       (fun FID => if (0 <? FID)%Z then Z.to_N (FID * 1000) else 0%N)
       (fun FID => if (0 <? FID)%Z then Z.to_N (FID * 1000 + 999) else 0%N)
       (fun L1 L2 => (L1 / 1000 =? L2 / 1000)%N)
       (fun Loc => if (Loc =? 1900)%N then "endif" +:+ LF
                   else "<<<<INVALID BUFFER>>>>").


Definition Check : HeaderGuardCheck :=
  baseCheck (fun FileName _ =>
               if String.eqb FileName "include/foo/bar.h"
               then "FOO_BAR_H" else "SOLO_H").

Definition BAR_H : IdentifierInfo.t := IdentifierInfo.mk "BAR_H".

Definition guardDirective (DefLoc : SourceLocation) : MacroDirective :=
  mkMacroDirective (mkMacroInfo true DefLoc).
Definition plainDirective (DefLoc : SourceLocation) : MacroDirective :=
  mkMacroDirective (mkMacroInfo false DefLoc).

(** [#ifndef BAR_H], [#define BAR_H], [#endif] in [bar.h]. *)
Definition barEvents : list PPEvent :=
  [EvFileChanged 1000 EnterFile C_User 0;
   EvIfndef 1001 (mkToken BAR_H 1008) None;
   EvMacroDefined (mkToken BAR_H 1023) (guardDirective 1023);
   EvEndif 1900 1001].

Definition barGuard : Token * MacroDirective :=
  (mkToken BAR_H 1023, guardDirective 1023).

(** The state the events of [bar.h] lead to, and the state after the
    first loop of [EndOfMainFile] has visited its guard. *)
Definition barState : PPState :=
  mkState [barGuard] {[ "include/foo/bar.h" := bar_h ]}
          {[ BAR_H := (1001%N, 1008%N) ]} {[ 1001%N := 1900%N ]}.
Definition barVisited : PPState :=
  mkState [barGuard] ∅
          {[ BAR_H := (1001%N, 1008%N) ]} {[ 1001%N := 1900%N ]}.

(** [main.cpp] alone: it defines a macro that is no guard. *)
Definition mainEvents : list PPEvent :=
  [EvFileChanged 3000 EnterFile C_User 0;
   EvMacroDefined (mkToken (IdentifierInfo.mk "N") 3008)
                  (plainDirective 3008)].

(** [solo.h] alone, as the main file, without any directive. *)
Definition soloEvents : list PPEvent :=
  [EvFileChanged 2000 EnterFile C_User 0].



(** The state after [#ifndef BAR_H] and [#define BAR_H] when the [#endif]
    was never seen. *)
Definition unterminated : PPState :=
  mkState [barGuard]
          {[ "include/foo/bar.h" := bar_h ]}
          {[ BAR_H := (1001%N, 1008%N) ]}
          ∅.



End Demo.

(** The macros the events define, in order. *)
Definition definedMacros (events : list PPEvent)
  : list (Token * MacroDirective) :=
  flat_map (fun e => match e with
                     | EvMacroDefined Tok MD => [(Tok, MD)]
                     | _ => []
                     end) events.

(** A state in which the end of the main file has nothing to report: no
    recorded macro is used as a header guard, and no recorded file is one a
    guard should be added to. *)
Definition quiet (Check : HeaderGuardCheck) (st : PPState) : Prop :=
  (forall MacroEntry,
     MacroEntry ∈ Macros st ->
     isUsedForHeaderGuard (getMacroInfo MacroEntry.2) = false)
  /\ (forall FileName FE,
        Files st !! FileName = Some FE ->
        shouldSuggestToAddHeaderGuard Check FileName = false).

(** ** Relative paths

    A relative path with single separators is its components joined by
    ['/'].  A component is ["."], [".."] or a name; names are taken not to
    start with a dot, so that ["."] and [".."] are the only components with
    a leading dot. *)

Fixpoint noSeparator (s : string) : bool :=
  match s with
  | EmptyString => true
  | String c s' => negb (path.is_separator c) && noSeparator s'
  end.

(** A piece of a path: not empty and without a separator. *)
Definition isPiece (s : string) : Prop :=
  s <> EmptyString /\ noSeparator s = true.

Definition isName (s : string) : bool :=
  match s with
  | EmptyString => false
  | String c _ => negb (Ascii.eqb c ".") && noSeparator s
  end.

Definition isComponent (s : string) : bool :=
  String.eqb s "." || String.eqb s ".." || isName s.

Definition joinPath (comps : list string) : string := String.concat "/" comps.

(** What the loop of [cleanPath] does, told on the list of the components
    kept so far: ["."] keeps it, [".."] drops its last one, a name is added
    at its end. *)
Definition popOrPush (kept : list string) (I : string) : list string :=
  if String.eqb I "." then kept
  else if String.eqb I ".." then removelast kept
  else (kept ++ [I])%list.

Definition resolveDots (comps : list string) : list string :=
  fold_left popOrPush comps [].

(** ** The diagnostics by kind

    Each kind of diagnostic has its message and its fix-its. *)

Definition styleDiag (d : Diagnostic) : Prop :=
  Message d = msgStyle
  /\ isValid (DiagLoc d) = true
  /\ exists Define Len NewName,
       FixIts d =
         [CreateReplacement
            (getTokenRange (DiagLoc d) (getLocWithOffset (DiagLoc d) Len))
            NewName;
          CreateReplacement
            (getTokenRange Define (getLocWithOffset Define Len)) NewName].

Definition endifDiag (d : Diagnostic) : Prop :=
  Message d = msgEndif
  /\ isValid (DiagLoc d) = true
  /\ exists Len Text,
       FixIts d =
         [CreateReplacement
            (getCharRange (DiagLoc d) (getLocWithOffset (DiagLoc d) Len))
            Text].

Definition nonTopmostDiag (d : Diagnostic) : Prop :=
  Message d = msgNonTopmost /\ FixIts d = [].

Definition missingDiag (d : Diagnostic) : Prop :=
  Message d = msgMissing
  /\ isValid (DiagLoc d) = true
  /\ exists EndLoc Opening Closing,
       FixIts d =
         [CreateInsertion (DiagLoc d) Opening;
          CreateInsertion EndLoc Closing].

(** The number of recorded macros that are used as header guards. *)
Definition guardCount (l : list (Token * MacroDirective)) : nat :=
  length (List.filter (fun MacroEntry : Token * MacroDirective =>
                         isUsedForHeaderGuard (getMacroInfo MacroEntry.2)) l).

(** A text without carriage return, line feed and NUL. *)
Fixpoint noLineEnd (s : string) : bool :=
  match s with
  | EmptyString => true
  | String c s' =>
      negb (Ascii.eqb c "013" || Ascii.eqb c "010" || Ascii.eqb c "000")
      && noLineEnd s'
  end.

(** ** A header that is in order

    [src/solo.h] again, now guarded by [SOLO_H], the name [Demo.Check]
    derives for it, and with the guard in a comment on its [#endif]. *)

Module Tidy.

Definition SM : SourceManager :=
  mkSM (getFileID Demo.SM) (getFileEntryForID Demo.SM)
       (translateFile Demo.SM) (getLocForStartOfFile Demo.SM)
       (getLocForEndOfFile Demo.SM) (isWrittenInSameFile Demo.SM)
       (fun Loc => if (Loc =? 2900)%N then "endif  // SOLO_H" +:+ LF
                   else getCharacterData Demo.SM Loc).

Definition SOLO_H : IdentifierInfo.t := IdentifierInfo.mk "SOLO_H".

Definition guard : Token * MacroDirective :=
  (mkToken SOLO_H 2023, Demo.guardDirective 2023).

Definition events : list PPEvent :=
  [EvFileChanged 2000 EnterFile C_User 0;
   EvIfndef 2001 (mkToken SOLO_H 2008) None;
   EvMacroDefined (mkToken SOLO_H 2023) (Demo.guardDirective 2023);
   EvEndif 2900 2001].

Definition state : PPState :=
  mkState [guard] {[ "src/solo.h" := Demo.solo_h ]}
          {[ SOLO_H := (2001%N, 2008%N) ]} {[ 2001%N := 2900%N ]}.

(** [Demo.Check] with a [shouldFixHeaderGuard] that declines every
    path. *)
Definition declining : HeaderGuardCheck :=
  mkCheck (getHeaderGuard Demo.Check) (shouldSuggestEndifComment Demo.Check)
          (fun _ => false) (shouldSuggestToAddHeaderGuard Demo.Check).

End Tidy.

(** ** Reasoning about the effects *)

Lemma bind_Done {A B} (m : M A) (f : A -> M B) st a st1 d1 :
  m st = Done (a, st1, d1) ->
  bind m f st =
    match f a st1 with
    | Done (b, st2, d2) => Done (b, st2, (d1 ++ d2)%list)
    | NullDereference => NullDereference
    end.
Proof. intros Hm. unfold bind. rewrite Hm. reflexivity. Qed.

Lemma bind_Done_inv {A B} (m : M A) (f : A -> M B) st b st2 ds :
  bind m f st = Done (b, st2, ds) ->
  exists a st1 d1 d2,
    m st = Done (a, st1, d1) /\ f a st1 = Done (b, st2, d2)
    /\ ds = (d1 ++ d2)%list.
Proof.
  unfold bind. destruct (m st) as [[[a st1] d1]|]; [|discriminate].
  destruct (f a st1) as [[[b' st2'] d2]|] eqn:Hf; [|discriminate].
  intros H. injection H as <- <- <-. by exists a, st1, d1, d2.
Qed.


Lemma for_each_app {A} (l1 l2 : list A) (body : A -> M unit) st :
  for_each (l1 ++ l2)%list body st =
    (for_each l1 body ;; for_each l2 body) st.
Proof.
  revert st. induction l1 as [|x l1 IH]; intros st; simpl.
  - unfold bind, ret.
    destruct (for_each l2 body st) as [[[[] ?] ?]|]; reflexivity.
  - unfold bind. destruct (body x st) as [[[[] st1] d1]|]; [|reflexivity].
    rewrite IH. unfold bind.
    destruct (for_each l1 body st1) as [[[[] st2] d2]|]; [|reflexivity].
    destruct (for_each l2 body st2) as [[[[] st3] d3]|]; [|reflexivity].
    by rewrite app_assoc.
Qed.

(** A loop whose body never stops and leaves the state alone emits the
    diagnostics of its rounds, in order. *)
Lemma for_each_emits {A} (l : list A) (body : A -> M unit) st :
  (forall x, x ∈ l -> exists ds, body x st = Done (tt, st, ds)) ->
  for_each l body st =
    Done (tt, st, flat_map (fun x => emitted (body x) st) l).
Proof.
  induction l as [|x l IH]; intros Hbody; [done|]. simpl.
  destruct (Hbody x) as [ds Hx]; [left|].
  rewrite (bind_Done _ _ _ _ _ _ Hx), IH.
  - unfold emitted. by rewrite Hx.
  - intros y Hy. apply Hbody. by right.
Qed.

(** ** The naming check *)

Section NamingCheck.

Variable Check : HeaderGuardCheck.

(** C3.  With [canonical] the name [getHeaderGuard] derives for the file,
    [checkHeaderGuardDefinition] emits a diagnostic exactly when the
    [#ifndef] location is valid and the current guard is neither
    [canonical] nor [canonical] followed by one underscore.  The
    diagnostic then carries two replacements by [canonical], over the name
    token of the [#ifndef] and over the name token of the [#define], and
    [canonical] is returned; otherwise nothing is emitted and the current
    name is returned unchanged. *)
Theorem checkHeaderGuardDefinition_spec
        (Ifndef Define : SourceLocation) (FileName CurHeaderGuard : string)
        (st : PPState) :
  let canonical := getHeaderGuard Check FileName CurHeaderGuard in
  let nonconforming :=
    isValid Ifndef = true /\ CurHeaderGuard <> canonical
    /\ CurHeaderGuard <> canonical +:+ "_" in
  let run :=
    checkHeaderGuardDefinition Check Ifndef Define FileName CurHeaderGuard
                               st in
  (emitted (checkHeaderGuardDefinition Check Ifndef Define FileName
                                       CurHeaderGuard) st <> []
   <-> nonconforming)
  /\ (nonconforming ->
      run = Done (canonical, st,
        [mkDiag Ifndef msgStyle
           [CreateReplacement
              (getTokenRange Ifndef
                 (getLocWithOffset Ifndef (String.length CurHeaderGuard)))
              canonical;
            CreateReplacement
              (getTokenRange Define
                 (getLocWithOffset Define (String.length CurHeaderGuard)))
              canonical]]))
  /\ (~ nonconforming -> run = Done (CurHeaderGuard, st, [])).
Proof.
  intros canonical nonconforming run.
  assert (Hcase :
    (nonconforming /\
     run = Done (canonical, st,
        [mkDiag Ifndef msgStyle
           [CreateReplacement
              (getTokenRange Ifndef
                 (getLocWithOffset Ifndef (String.length CurHeaderGuard)))
              canonical;
            CreateReplacement
              (getTokenRange Define
                 (getLocWithOffset Define (String.length CurHeaderGuard)))
              canonical]]))
    \/ (~ nonconforming /\ run = Done (CurHeaderGuard, st, []))).
  { subst run nonconforming. unfold checkHeaderGuardDefinition.
    fold canonical.
    destruct (isValid Ifndef) eqn:Hv; simpl.
    - destruct (String.eqb_spec CurHeaderGuard canonical) as [He|Hne]; simpl.
      + right. split; [tauto|reflexivity].
      + destruct (String.eqb_spec CurHeaderGuard (canonical +:+ "_"))
          as [He'|Hne']; simpl.
        * right. split; [tauto|reflexivity].
        * left. split; [tauto|reflexivity].
    - right. split; [|reflexivity]. intros [? _]. discriminate. }
  unfold emitted. fold run.
  destruct Hcase as [[Hn Hr]|[Hn Hr]]; rewrite Hr.
  - split; [|split]; [split; [done|discriminate] | done | tauto].
  - split; [|split]; [split; [by intros []|tauto] | tauto | done].
Qed.

End NamingCheck.

(** ** The first loop of [EndOfMainFile] *)

Lemma subscript_again {K} `{Countable K} {V} (dflt : V) (m : gmap K V) k :
  subscript dflt (subscript dflt m k).2 k = subscript dflt m k.
Proof.
  unfold subscript. destruct (m !! k) as [v|] eqn:Hk; simpl.
  - by rewrite Hk.
  - by rewrite lookup_insert_eq.
Qed.

Lemma subscript_hit {K} `{Countable K} {V} (dflt : V) (m : gmap K V) k v :
  m !! k = Some v -> subscript dflt m k = (v, m).
Proof. intros Hk. unfold subscript. by rewrite Hk. Qed.


Lemma bind_silent {A B} (m : M A) (f : A -> M B) st a st1 :
  m st = Done (a, st1, []) -> bind m f st = f a st1.
Proof.
  intros Hm. rewrite (bind_Done _ _ _ _ _ _ Hm).
  by destruct (f a st1) as [[[? ?] ?]|].
Qed.

Section Reconcile.

Variable SM : SourceManager.
Variable Check : HeaderGuardCheck.

Lemma checkHeaderGuardDefinition_Done Ifndef Define FileName Cur st :
  exists N ds,
    checkHeaderGuardDefinition Check Ifndef Define FileName Cur st
      = Done (N, st, ds)
    /\ Forall (fun d => Message d = msgStyle) ds.
Proof.
  unfold checkHeaderGuardDefinition.
  destruct (_ && _ && _); eexists _, _; (split; [reflexivity|]);
    repeat constructor.
Qed.

Lemma checkEndifComment_Done EndIf N st :
  exists ds,
    checkEndifComment SM EndIf N st = Done (tt, st, ds)
    /\ Forall (fun d => Message d = msgEndif) ds.
Proof.
  unfold checkEndifComment.
  destruct (_ && _ && _); eexists; (split; [reflexivity|]);
    repeat constructor.
Qed.

Lemma visitMacro_skip MacroEntry st :
  isUsedForHeaderGuard (getMacroInfo MacroEntry.2) = false ->
  visitMacro SM Check MacroEntry st = Done (tt, st, []).
Proof. intros Hg. unfold visitMacro. by rewrite Hg. Qed.

Lemma visitMacro_null MacroEntry st :
  isUsedForHeaderGuard (getMacroInfo MacroEntry.2) = true ->
  guardFile SM MacroEntry = None ->
  visitMacro SM Check MacroEntry st = NullDereference.
Proof.
  unfold guardFile. intros Hg Hfe. unfold visitMacro.
  rewrite Hg, Hfe. reflexivity.
Qed.

Lemma visitMacro_nofix MacroEntry st FE :
  isUsedForHeaderGuard (getMacroInfo MacroEntry.2) = true ->
  guardFile SM MacroEntry = Some FE ->
  shouldFixHeaderGuard Check (cleanPath (FileEntry.getName FE)) = false ->
  visitMacro SM Check MacroEntry st =
    Done (tt, setFiles (delete (cleanPath (FileEntry.getName FE)) (Files st))
                       st, []).
Proof.
  unfold guardFile. intros Hg Hfe Hfix. unfold visitMacro.
  rewrite Hg, Hfe. simpl. unfold bind, ret, modify. simpl.
  rewrite Hfix. reflexivity.
Qed.

Lemma visitMacro_fix MacroEntry st FE :
  isUsedForHeaderGuard (getMacroInfo MacroEntry.2) = true ->
  guardFile SM MacroEntry = Some FE ->
  shouldFixHeaderGuard Check (cleanPath (FileEntry.getName FE)) = true ->
  let FileName := cleanPath (FileEntry.getName FE) in
  let II := getIdentifierInfo MacroEntry.1 in
  let r1 := subscript (0%N, 0%N) (Ifndefs st) II in
  let r2 := subscript 0%N (EndIfs st) r1.1.1 in
  let st3 := mkState (Macros st) (delete FileName (Files st)) r1.2 r2.2 in
  visitMacro SM Check MacroEntry st =
    (do NewGuard <-
       checkHeaderGuardDefinition Check r1.1.2 (getLocation MacroEntry.1)
         FileName (IdentifierInfo.getName II) ;
     if shouldSuggestEndifComment Check FileName
     then checkEndifComment SM r2.1 NewGuard
     else ret tt) st3.
Proof.
  intros Hg Hfe Hfix FileName II r1 r2 st3. unfold guardFile in Hfe.
  unfold visitMacro. rewrite Hg, Hfe. simpl. fold FileName.
  rewrite (bind_silent _ _ st FE st) by reflexivity.
  rewrite (bind_silent _ _ st tt (setFiles (delete FileName (Files st)) st))
    by reflexivity.
  rewrite Hfix. simpl. fold II.
  rewrite (bind_silent _ _ _ r1.1
             (setIfndefs r1.2 (setFiles (delete FileName (Files st)) st))).
  2:{ unfold Ifndefs_at. simpl. fold r1. by destruct r1. }
  rewrite (bind_silent _ _ _ r1.1
             (setIfndefs r1.2 (setFiles (delete FileName (Files st)) st))).
  2:{ unfold Ifndefs_at. simpl. unfold r1 at 1.
      rewrite subscript_again. fold r1. by destruct r1. }
  rewrite (bind_silent _ _ _ r2.1 st3).
  2:{ unfold EndIfs_at. simpl. fold r2. by destruct r2. }
  reflexivity.
Qed.

End Reconcile.

(** ** The report on headers without a guard *)

Lemma filter_absent_key {V} (l : list (string * V)) (k : string) :
  k ∉ l.*1 -> filter (fun x : string * V => x.1 = k) l = [].
Proof.
  induction l as [|[k' v'] l IH]; intros Hk; [reflexivity|].
  rewrite fmap_cons, not_elem_of_cons in Hk. destruct Hk as [Hne Hk].
  rewrite filter_cons_False by (simpl; naive_solver). by apply IH.
Qed.


Section Guardless.

Variable SM : SourceManager.
Variable Check : HeaderGuardCheck.

Lemma seekGuardMacro_find l CPPVar CPPVarUnder StartLoc st :
  seekGuardMacro SM l CPPVar CPPVarUnder StartLoc st =
    match List.find (namesGuardIn SM CPPVar CPPVarUnder StartLoc) l with
    | Some MacroEntry =>
        Done (true, st, [mkDiag (getLocation MacroEntry.1) msgNonTopmost []])
    | None => Done (false, st, [])
    end.
Proof.
  induction l as [|e l IH]; simpl; [reflexivity|].
  destruct (namesGuardIn SM CPPVar CPPVarUnder StartLoc e); [|exact IH].
  reflexivity.
Qed.

(** The two diagnostics of [guardlessHeader]. *)
Lemma guardlessHeader_cases FE st :
  let FileName := FE.1 in
  let FID := translateFile SM FE.2 in
  let StartLoc := getLocForStartOfFile SM FID in
  let CPPVar := getHeaderGuard Check FileName "" in
  guardlessHeader SM Check FE st =
    Done (tt, st,
      if negb (shouldSuggestToAddHeaderGuard Check FileName) then []
      else if isInvalid StartLoc then []
      else
        match List.find (namesGuardIn SM CPPVar (CPPVar +:+ "_") StartLoc)
                        (Macros st) with
        | Some MacroEntry =>
            [mkDiag (getLocation MacroEntry.1) msgNonTopmost []]
        | None =>
            [mkDiag StartLoc msgMissing
               [CreateInsertion StartLoc
                  ("#ifndef " +:+ CPPVar +:+ LF +:+ "#define " +:+ CPPVar
                   +:+ LF +:+ LF);
                CreateInsertion (getLocForEndOfFile SM FID)
                  (if shouldSuggestEndifComment Check FileName
                   then LF +:+ "#endif  // " +:+ CPPVar +:+ LF
                   else LF +:+ "#endif" +:+ LF)]]
        end).
Proof.
  intros FileName FID StartLoc CPPVar. unfold guardlessHeader.
  fold FileName FID StartLoc CPPVar.
  destruct (negb (shouldSuggestToAddHeaderGuard Check FileName));
    [reflexivity|].
  destruct (isInvalid StartLoc); [reflexivity|].
  rewrite (bind_silent _ _ st st st) by reflexivity.
  unfold bind. rewrite seekGuardMacro_find.
  destruct (List.find _ (Macros st)); reflexivity.
Qed.

Lemma guardlessHeader_Done FE st :
  guardlessHeader SM Check FE st
    = Done (tt, st, emitted (guardlessHeader SM Check FE) st).
Proof.
  unfold emitted. by rewrite guardlessHeader_cases.
Qed.

Lemma guardlessHeader_at_most_one FE st :
  (length (emitted (guardlessHeader SM Check FE) st) <= 1)%nat.
Proof.
  unfold emitted. rewrite guardlessHeader_cases. cbv zeta.
  repeat case_match; simpl; lia.
Qed.

Lemma guardlessHeader_messages FE st :
  Forall (fun d => Message d = msgMissing \/ Message d = msgNonTopmost)
         (emitted (guardlessHeader SM Check FE) st).
Proof.
  unfold emitted. rewrite guardlessHeader_cases. cbv zeta.
  repeat case_match; repeat constructor; simpl; tauto.
Qed.

(** [checkGuardlessHeaders] emits, record after record of [Files], what
    [guardlessHeader] emits for the record. *)
Lemma checkGuardlessHeaders_emits st :
  checkGuardlessHeaders SM Check st =
    Done (tt, st,
          flat_map (fun FE => emitted (guardlessHeader SM Check FE) st)
                   (map_to_list (Files st))).
Proof.
  unfold checkGuardlessHeaders.
  rewrite (bind_silent _ _ st st st) by reflexivity.
  apply for_each_emits. intros FE _. eexists. apply guardlessHeader_Done.
Qed.


Lemma no_round_without_key (m : gmap string FileEntry.t) FileName :
  m !! FileName = None ->
  filter (fun x : string * FileEntry.t => x.1 = FileName) (map_to_list m)
    = [].
Proof.
  intros Hm. apply filter_absent_key.
  intros [[k v] [Hk Hin]]%list_elem_of_fmap. simpl in Hk. subst k.
  apply elem_of_map_to_list in Hin. congruence.
Qed.

End Guardless.

(** ** [EndOfMainFile] as a whole *)

Section EndOfMainFile.

Variable SM : SourceManager.
Variable Check : HeaderGuardCheck.

(** What one round of the first loop does to the state. *)
Lemma visitMacro_Done_inv MacroEntry st st' ds :
  visitMacro SM Check MacroEntry st = Done (tt, st', ds) ->
  Macros st' = Macros st
  /\ Forall styleOrEndif ds
  /\ (if isUsedForHeaderGuard (getMacroInfo MacroEntry.2)
      then exists FE, guardFile SM MacroEntry = Some FE
             /\ Files st' = delete (cleanPath (FileEntry.getName FE))
                                   (Files st)
      else st' = st /\ ds = []).
Proof.
  intros Hrun.
  destruct (isUsedForHeaderGuard (getMacroInfo MacroEntry.2)) eqn:Hg.
  2:{ rewrite visitMacro_skip in Hrun by done.
      injection Hrun as <- <-. repeat split. constructor. }
  destruct (guardFile SM MacroEntry) as [FE|] eqn:Hfe.
  2:{ by rewrite visitMacro_null in Hrun. }
  destruct (shouldFixHeaderGuard Check (cleanPath (FileEntry.getName FE)))
    eqn:Hfix.
  2:{ rewrite (visitMacro_nofix _ _ _ _ FE) in Hrun by done.
      injection Hrun as <- <-. repeat split; [constructor|].
      by exists FE. }
  rewrite (visitMacro_fix _ _ _ _ FE) in Hrun by done.
  cbv zeta in Hrun.
  set (st3 := mkState _ _ _ _) in Hrun.
  apply bind_Done_inv in Hrun as (N & st1 & d1 & d2 & Hn & He & ->).
  edestruct (checkHeaderGuardDefinition_Done Check)
    as (N' & d1' & Hn' & Hd1).
  rewrite Hn' in Hn. injection Hn as -> <- ->.
  assert (st' = st3 /\ Forall (fun d => Message d = msgEndif) d2)
    as [-> Hd2].
  { destruct (shouldSuggestEndifComment Check _).
    - edestruct (checkEndifComment_Done SM) as (d2' & He' & Hd2).
      rewrite He' in He. by injection He as <- <-.
    - injection He as <- <-. split; [done|constructor]. }
  repeat split; simpl.
  - apply Forall_app. split.
    + eapply Forall_impl; [exact Hd1|]. intros d Hd. by left.
    + eapply Forall_impl; [exact Hd2|]. intros d Hd. by right.
  - by exists FE.
Qed.

(** The first loop only removes records from [Files]; it removes the
    record of every guard it visits, and leaves [Macros] alone. *)
Lemma first_loop_inv l st st' ds :
  for_each l (visitMacro SM Check) st = Done (tt, st', ds) ->
  Macros st' = Macros st
  /\ Forall styleOrEndif ds
  /\ (forall k, Files st !! k = None -> Files st' !! k = None)
  /\ (forall MacroEntry,
        MacroEntry ∈ l ->
        isUsedForHeaderGuard (getMacroInfo MacroEntry.2) = true ->
        exists FE, guardFile SM MacroEntry = Some FE
          /\ Files st' !! cleanPath (FileEntry.getName FE) = None).
Proof.
  revert st st' ds. induction l as [|e l IH]; intros st st' ds Hrun.
  - injection Hrun as <- <-. repeat split; [constructor|done|].
    intros e He. by apply elem_of_nil in He.
  - simpl in Hrun.
    apply bind_Done_inv in Hrun as ([] & st1 & d1 & d2 & He & Hl & ->).
    apply visitMacro_Done_inv in He as (Hm1 & Hd1 & Hfiles1).
    apply IH in Hl as (Hm2 & Hd2 & Hmono & Hgone).
    assert (forall k, Files st !! k = None -> Files st1 !! k = None)
      as Hstep.
    { intros k Hk.
      destruct (isUsedForHeaderGuard (getMacroInfo e.2)).
      - destruct Hfiles1 as (FE & _ & ->).
        destruct (decide (cleanPath (FileEntry.getName FE) = k)) as [->|].
        + apply lookup_delete_eq.
        + by rewrite lookup_delete_ne.
      - destruct Hfiles1 as [-> _]. exact Hk. }
    repeat split.
    + congruence.
    + apply Forall_app. by split.
    + intros k Hk. apply Hmono, Hstep, Hk.
    + intros e' [->|Hin]%elem_of_cons Hg.
      * rewrite Hg in Hfiles1. destruct Hfiles1 as (FE & Hfe & Hdel).
        exists FE. split; [done|]. apply Hmono. rewrite Hdel.
        apply lookup_delete_eq.
      * by apply Hgone.
Qed.

Lemma clearAll_Done st : clearAll st = Done (tt, emptyState, []).
Proof. reflexivity. Qed.

(** [EndOfMainFile]: the first loop, the report on what is left of
    [Files], and the clearing of the four containers. *)
Lemma EndOfMainFile_eq st :
  EndOfMainFile SM Check st =
    match for_each (Macros st) (visitMacro SM Check) st with
    | Done (_, st1, d1) =>
        Done (tt, emptyState,
              (d1 ++ flat_map
                       (fun FE => emitted (guardlessHeader SM Check FE) st1)
                       (map_to_list (Files st1)))%list)
    | NullDereference => NullDereference
    end.
Proof.
  unfold EndOfMainFile.
  rewrite (bind_silent _ _ st st st) by reflexivity.
  unfold bind at 1.
  destruct (for_each (Macros st) (visitMacro SM Check) st)
    as [[[[] st1] d1]|]; [|reflexivity].
  unfold bind. rewrite checkGuardlessHeaders_emits, clearAll_Done.
  by rewrite app_nil_r.
Qed.

End EndOfMainFile.

(** ** The claims about the end of the main file *)

Section Claims.

Variable SM : SourceManager.
Variable Check : HeaderGuardCheck.

Lemma reportedFor_absent FileName st :
  Files st !! FileName = None -> reportedFor SM Check FileName st = [].
Proof.
  intros Hk. unfold reportedFor. by rewrite no_round_without_key.
Qed.


Lemma emitted_checkGuardlessHeaders st :
  emitted (checkGuardlessHeaders SM Check) st =
    flat_map (fun FE => emitted (guardlessHeader SM Check FE) st)
             (map_to_list (Files st)).
Proof. unfold emitted at 1. by rewrite checkGuardlessHeaders_emits. Qed.

(** C1.  When [EndOfMainFile] has run, every recorded macro that is used
    as a header guard has a file entry for its definition location, and the
    record of that file has been erased from [Files] by the first loop,
    whatever [shouldFixHeaderGuard] answers for the path: the loop emits
    only diagnostics of the naming and [#endif] checks, the report on
    guardless headers has no round for the path, and each diagnostic of the
    report comes from the record of another path. *)
Theorem guard_removes_file_record st st' ds MacroEntry :
  EndOfMainFile SM Check st = Done (tt, st', ds) ->
  MacroEntry ∈ Macros st ->
  isUsedForHeaderGuard (getMacroInfo MacroEntry.2) = true ->
  exists FE st1 d1,
    guardFile SM MacroEntry = Some FE
    /\ for_each (Macros st) (visitMacro SM Check) st = Done (tt, st1, d1)
    /\ Files st1 !! cleanPath (FileEntry.getName FE) = None
    /\ ds = (d1 ++ emitted (checkGuardlessHeaders SM Check) st1)%list
    /\ Forall styleOrEndif d1
    /\ reportedFor SM Check (cleanPath (FileEntry.getName FE)) st1 = []
    /\ (forall d,
          d ∈ emitted (checkGuardlessHeaders SM Check) st1 ->
          exists Other FE',
            Other <> cleanPath (FileEntry.getName FE)
            /\ Files st1 !! Other = Some FE'
            /\ d ∈ emitted (guardlessHeader SM Check (Other, FE')) st1).
Proof.
  intros Hrun Hin Hg. rewrite EndOfMainFile_eq in Hrun.
  destruct (for_each (Macros st) (visitMacro SM Check) st)
    as [[[[] st1] d1]|] eqn:Hloop; [|discriminate].
  injection Hrun as <- <-.
  pose proof (first_loop_inv SM Check _ _ _ _ Hloop)
    as (_ & Hd1 & _ & Hgone).
  destruct (Hgone _ Hin Hg) as (FE & Hfe & Hnone).
  exists FE, st1, d1. repeat split; try done.
  - by rewrite emitted_checkGuardlessHeaders.
  - by apply reportedFor_absent.
  - intros d Hd. rewrite emitted_checkGuardlessHeaders in Hd.
    apply list_elem_of_In, in_flat_map in Hd as ([k v] & Hkv & Hd).
    apply list_elem_of_In, elem_of_map_to_list in Hkv.
    exists k, v. repeat split; [|done|by apply list_elem_of_In].
    intros ->. congruence.
Qed.


End Claims.

(** ** The [#endif] check and the lookups that miss *)

Section EndifCheck.

Variable SM : SourceManager.
Variable Check : HeaderGuardCheck.



End EndifCheck.

(** ** The events of a translation unit *)

Section Events.

Variable SM : SourceManager.
Variable Check : HeaderGuardCheck.

(** No event handler stops or emits a diagnostic. *)
Lemma handle_Done e st :
  exists st1, handle SM e st = Done (tt, st1, []).
Proof.
  destruct e as [Loc [] [] Prev|Loc Tok [MD|]|Tok MD|Loc IfLoc]; simpl;
    unfold FileChanged, Ifndef, MacroDefined, Endif;
    try (eexists; reflexivity).
  destruct (getFileEntryForID SM (getFileID SM Loc)); eexists; reflexivity.
Qed.

(** What one event does to [Files] and [Macros]. *)
Lemma handle_inv e st st1 ds :
  handle SM e st = Done (tt, st1, ds) ->
  (forall k, is_Some (Files st !! k) -> is_Some (Files st1 !! k))
  /\ (forall Loc Prev FE,
        e = EvFileChanged Loc EnterFile C_User Prev ->
        getFileEntryForID SM (getFileID SM Loc) = Some FE ->
        is_Some (Files st1 !! cleanPath (FileEntry.getName FE)))
  /\ (forall k FE,
        Files st1 !! k = Some FE ->
        Files st !! k = Some FE
        \/ exists Loc Prev,
             e = EvFileChanged Loc EnterFile C_User Prev
             /\ getFileEntryForID SM (getFileID SM Loc) = Some FE
             /\ k = cleanPath (FileEntry.getName FE))
  /\ Macros st1 =
       (Macros st ++ match e with
                     | EvMacroDefined Tok MD => [(Tok, MD)]
                     | _ => []
                     end)%list.
Proof.
  intros Hrun.
  destruct e as [Loc [] [] Prev|Loc Tok [MD|]|Tok MD|Loc IfLoc];
    simpl in Hrun; unfold FileChanged, Ifndef, MacroDefined, Endif in Hrun;
    try (injection Hrun as <- <-; simpl;
         repeat split; try done; try (by rewrite app_nil_r);
         try (intros; by left)).
  destruct (getFileEntryForID SM (getFileID SM Loc)) as [FE|] eqn:Hfe;
    injection Hrun as <- <-; simpl.
  - repeat split.
    + intros k Hk.
      destruct (decide (cleanPath (FileEntry.getName FE) = k)) as [<-|].
      * rewrite lookup_insert_eq. by eexists.
      * by rewrite lookup_insert_ne.
    + intros Loc' Prev' FE' [= <- <-] Hfe'.
      rewrite Hfe in Hfe'. injection Hfe' as <-.
      rewrite lookup_insert_eq. by eexists.
    + intros k FE'.
      destruct (decide (cleanPath (FileEntry.getName FE) = k)) as [<-|].
      * rewrite lookup_insert_eq. intros [= <-]. right. by exists Loc, Prev.
      * rewrite lookup_insert_ne by done. by left.
    + by rewrite app_nil_r.
  - repeat split; try done; [|intros; by left|by rewrite app_nil_r].
    intros Loc' Prev' FE' [= <- <-]. congruence.
Qed.

Lemma events_inv events st :
  exists st0,
    for_each events (handle SM) st = Done (tt, st0, [])
    /\ (forall k, is_Some (Files st !! k) -> is_Some (Files st0 !! k))
    /\ (forall Loc Prev FE,
          EvFileChanged Loc EnterFile C_User Prev ∈ events ->
          getFileEntryForID SM (getFileID SM Loc) = Some FE ->
          is_Some (Files st0 !! cleanPath (FileEntry.getName FE)))
    /\ (forall k FE,
          Files st0 !! k = Some FE ->
          Files st !! k = Some FE
          \/ exists Loc Prev,
               EvFileChanged Loc EnterFile C_User Prev ∈ events
               /\ getFileEntryForID SM (getFileID SM Loc) = Some FE
               /\ k = cleanPath (FileEntry.getName FE))
    /\ Macros st0 = (Macros st ++ definedMacros events)%list.
Proof.
  revert st. induction events as [|e events IH]; intros st.
  - exists st. repeat split; try done; [|intros; by left|].
    + intros ? ? ? Hin. by apply elem_of_nil in Hin.
    + simpl. by rewrite app_nil_r.
  - destruct (handle_Done e st) as [st1 He].
    destruct (IH st1) as (st0 & Hrun & Hkeep & Hrec & Hsrc & Hmac).
    apply handle_inv in He as Hinv.
    destruct Hinv as (Hkeep1 & Hrec1 & Hsrc1 & Hmac1).
    exists st0. repeat split.
    + simpl. rewrite (bind_silent _ _ _ _ _ He). exact Hrun.
    + intros k Hk. by apply Hkeep, Hkeep1.
    + intros Loc Prev FE [<-|Hin]%elem_of_cons Hfe.
      * eapply Hkeep, Hrec1; done.
      * by eapply Hrec.
    + intros k FE Hk. destruct (Hsrc _ _ Hk) as [Hk1|Hev].
      * destruct (Hsrc1 _ _ Hk1) as [?|(Loc & Prev & -> & ? & ?)];
          [by left|].
        right. exists Loc, Prev. repeat split; [left|done|done].
      * destruct Hev as (Loc & Prev & Hin & ? & ?). right.
        exists Loc, Prev. repeat split; [by right|done|done].
    + rewrite Hmac, Hmac1. simpl. by rewrite app_assoc.
Qed.

Lemma translationUnit_eq events st st0 :
  for_each events (handle SM) st = Done (tt, st0, []) ->
  translationUnit SM Check events st = EndOfMainFile SM Check st0.
Proof.
  intros Hev. unfold translationUnit.
  by rewrite (bind_silent _ _ _ _ _ Hev).
Qed.

End Events.

(** ** The claims about a whole translation unit *)

Section Unit.

Variable SM : SourceManager.
Variable Check : HeaderGuardCheck.




Lemma quiet_EndOfMainFile st :
  quiet Check st ->
  EndOfMainFile SM Check st = Done (tt, emptyState, []).
Proof.
  intros [Hmac Hfiles]. rewrite EndOfMainFile_eq.
  assert (for_each (Macros st) (visitMacro SM Check) st = Done (tt, st, []))
    as ->.
  { revert Hmac. generalize (Macros st) as l.
    induction l as [|e l IH]; intros Hmac; [reflexivity|]. simpl.
    rewrite (bind_silent _ _ st tt st).
    - apply IH. intros e' He'. apply Hmac. by right.
    - apply visitMacro_skip, Hmac. left. }
  f_equal. f_equal. simpl.
  assert (forall l : list (string * FileEntry.t),
            (forall x, x ∈ l -> x ∈ map_to_list (Files st)) ->
            flat_map (fun FE => emitted (guardlessHeader SM Check FE) st) l
            = []) as Hnone.
  { induction l as [|[k v] l IH]; intros Hl; [reflexivity|]. simpl.
    rewrite IH by (intros x Hx; apply Hl; by right).
    unfold emitted. rewrite guardlessHeader_cases. cbv zeta. simpl.
    assert ((k, v) ∈ map_to_list (Files st)) as Hkv by (apply Hl; left).
    apply elem_of_map_to_list in Hkv. by rewrite (Hfiles _ _ Hkv). }
  by apply Hnone.
Qed.

(** C7, as the code has it.  When [EndOfMainFile] has run, alone or
    after the events of a unit, [Macros], [Files], [Ifndefs] and [EndIfs]
    are empty.  A unit that defines no macro used as a header guard, and
    enters no user file that [shouldSuggestToAddHeaderGuard] accepts,
    produces no diagnostic. *)
Theorem EndOfMainFile_clears :
  (forall st st' ds,
     EndOfMainFile SM Check st = Done (tt, st', ds) -> st' = emptyState)
  /\ (forall events st st' ds,
        translationUnit SM Check events st = Done (tt, st', ds) ->
        st' = emptyState)
  /\ (forall events,
        (forall Tok MD,
           EvMacroDefined Tok MD ∈ events ->
           isUsedForHeaderGuard (getMacroInfo MD) = false) ->
        (forall Loc Prev FE,
           EvFileChanged Loc EnterFile C_User Prev ∈ events ->
           getFileEntryForID SM (getFileID SM Loc) = Some FE ->
           shouldSuggestToAddHeaderGuard Check
             (cleanPath (FileEntry.getName FE)) = false) ->
        translationUnit SM Check events emptyState
          = Done (tt, emptyState, [])).
Proof.
  assert (Hclear : forall st st' ds,
            EndOfMainFile SM Check st = Done (tt, st', ds) ->
            st' = emptyState).
  { intros st st' ds Hrun. rewrite EndOfMainFile_eq in Hrun.
    destruct (for_each _ _ st) as [[[[] ?] ?]|]; [|discriminate].
    by injection Hrun as <- _. }
  split; [exact Hclear|]. split.
  - intros events st st' ds Hrun.
    destruct (events_inv SM events st) as (st0 & Hev & _).
    rewrite (translationUnit_eq _ _ _ _ _ Hev) in Hrun.
    by apply Hclear in Hrun.
  - intros events Hmac Hfiles.
    destruct (events_inv SM events emptyState)
      as (st0 & Hev & _ & _ & Hsrc & Hm).
    rewrite (translationUnit_eq _ _ _ _ _ Hev).
    apply quiet_EndOfMainFile. split.
    + intros [Tok MD] Hin. rewrite Hm in Hin. simpl in Hin.
      apply list_elem_of_In, in_flat_map in Hin as (e & He & Hin).
      destruct e; simpl in Hin; try done.
      destruct Hin as [[= <- <-]|[]].
      eapply Hmac. apply list_elem_of_In. exact He.
    + intros k FE Hk.
      destruct (Hsrc _ _ Hk) as [Hk0|(Loc & Prev & Hin & Hfe & ->)].
      * simpl in Hk0. by rewrite lookup_empty in Hk0.
      * by eapply Hfiles.
Qed.

Lemma visitMacro_total MacroEntry st :
  (isUsedForHeaderGuard (getMacroInfo MacroEntry.2) = true ->
   is_Some (guardFile SM MacroEntry)) ->
  exists st1 ds, visitMacro SM Check MacroEntry st = Done (tt, st1, ds).
Proof.
  intros Hfile.
  destruct (isUsedForHeaderGuard (getMacroInfo MacroEntry.2)) eqn:Hg.
  2:{ eexists _, _. by apply visitMacro_skip. }
  destruct Hfile as [FE Hfe]; [done|].
  destruct (shouldFixHeaderGuard Check (cleanPath (FileEntry.getName FE)))
    eqn:Hfix.
  2:{ eexists _, _. by apply visitMacro_nofix. }
  rewrite (visitMacro_fix _ _ _ _ FE) by done. cbv zeta.
  set (st3 := mkState _ _ _ _).
  edestruct (checkHeaderGuardDefinition_Done Check) as (N & d1 & Hn & _).
  rewrite (bind_Done _ _ _ _ _ _ Hn).
  destruct (shouldSuggestEndifComment Check _).
  - edestruct (checkEndifComment_Done SM) as (d2 & He & _).
    rewrite He. by eexists _, _.
  - by eexists _, _.
Qed.


(** The first loop stops exactly at a guard without a file entry. *)
Lemma first_loop_null l st :
  for_each l (visitMacro SM Check) st = NullDereference ->
  exists MacroEntry,
    MacroEntry ∈ l
    /\ isUsedForHeaderGuard (getMacroInfo MacroEntry.2) = true
    /\ guardFile SM MacroEntry = None.
Proof.
  revert st. induction l as [|e l IH]; intros st Hrun; [discriminate|].
  destruct (isUsedForHeaderGuard (getMacroInfo e.2)) eqn:Hg.
  - destruct (guardFile SM e) as [FE|] eqn:Hfe.
    + destruct (visitMacro_total e st) as (st1 & d1 & He).
      { intros _. by rewrite Hfe. }
      simpl in Hrun. rewrite (bind_Done _ _ _ _ _ _ He) in Hrun.
      destruct (for_each l (visitMacro SM Check) st1)
        as [[[? ?] ?]|] eqn:Hrest; [discriminate|].
      destruct (IH _ Hrest) as (e' & Hin & ? & ?).
      exists e'. repeat split; [by right|done|done].
    + exists e. repeat split; [left|done|done].
  - simpl in Hrun.
    rewrite (bind_silent _ _ st tt st) in Hrun by by apply visitMacro_skip.
    destruct (IH _ Hrun) as (e' & Hin & ? & ?).
    exists e'. repeat split; [by right|done|done].
Qed.

(** And it does stop there. *)
Lemma first_loop_stops l st MacroEntry :
  MacroEntry ∈ l ->
  isUsedForHeaderGuard (getMacroInfo MacroEntry.2) = true ->
  guardFile SM MacroEntry = None ->
  for_each l (visitMacro SM Check) st = NullDereference.
Proof.
  revert st. induction l as [|e l IH]; intros st Hin Hg Hfe.
  - by apply elem_of_nil in Hin.
  - simpl. unfold bind.
    destruct (visitMacro SM Check e st) as [[[[] st1] d1]|] eqn:He;
      [|reflexivity].
    apply elem_of_cons in Hin as [->|Hin].
    + by rewrite visitMacro_null in He.
    + by rewrite (IH st1 Hin Hg Hfe).
Qed.


End Unit.

(** ** The default policies *)

Lemma string_app_cons (c : ascii) (a b : string) :
  String c a +:+ b = String c (a +:+ b).
Proof. reflexivity. Qed.

Lemma string_length_app (a b : string) :
  String.length (a +:+ b) = (String.length a + String.length b)%nat.
Proof.
  induction a as [|c a IH]; [reflexivity|].
  rewrite string_app_cons. simpl. by rewrite IH.
Qed.

Lemma string_app_assoc (a b c : string) :
  (a +:+ b) +:+ c = a +:+ (b +:+ c).
Proof.
  induction a as [|x a IH]; [reflexivity|].
  rewrite !string_app_cons. by rewrite IH.
Qed.

Lemma substring_all (s : string) : substring 0 (String.length s) s = s.
Proof. induction s as [|c s IH]; simpl; [reflexivity|]. by rewrite IH. Qed.

Lemma substring_skip (a b : string) (m : nat) :
  substring (String.length a) m (a +:+ b) = substring 0 m b.
Proof.
  induction a as [|c a IH]; [reflexivity|].
  rewrite string_app_cons. simpl. exact IH.
Qed.

Lemma substring_split (s : string) (k : nat) :
  (k <= String.length s)%nat ->
  s = substring 0 k s +:+ substring k (String.length s - k) s.
Proof.
  revert k. induction s as [|c s IH]; intros k Hk.
  - by destruct k.
  - destruct k as [|k]; simpl.
    + by rewrite substring_all.
    + rewrite string_app_cons. f_equal. apply IH. simpl in Hk. lia.
Qed.

(** [endswith] holds exactly of the strings that are something followed by
    the suffix. *)
Lemma endswith_iff (s suf : string) :
  StringRef.endswith s suf = true <-> exists q, s = q +:+ suf.
Proof.
  unfold StringRef.endswith. rewrite andb_true_iff, Nat.leb_le, String.eqb_eq.
  split.
  - intros [Hle Hsub].
    exists (substring 0 (String.length s - String.length suf) s).
    rewrite (substring_split s (String.length s - String.length suf)) at 1
      by lia.
    f_equal.
    replace (String.length s - (String.length s - String.length suf))%nat
      with (String.length suf) by lia.
    exact Hsub.
  - intros [q ->]. rewrite string_length_app. split; [lia|].
    replace (String.length q + String.length suf - String.length suf)%nat
      with (String.length q) by lia.
    by rewrite substring_skip, substring_all.
Qed.

(** A string that ends with [t] ends with a suffix of the same length only
    when the suffix is [t]. *)
Lemma endswith_same_length (q t suf : string) :
  String.length t = String.length suf ->
  StringRef.endswith (q +:+ t) suf = String.eqb t suf.
Proof.
  intros Hlen. unfold StringRef.endswith. rewrite string_length_app.
  replace (String.length suf <=? String.length q + String.length t)%nat
    with true by (symmetry; apply Nat.leb_le; lia).
  replace (String.length q + String.length t - String.length suf)%nat
    with (String.length q) by lia.
  by rewrite substring_skip, <- Hlen, substring_all.
Qed.

(** C10.  The bodies [HeaderGuardCheck] gives to its policies:
    [shouldSuggestEndifComment] and [shouldSuggestToAddHeaderGuard] accept
    exactly the names that end with [.h] (so not those that end with
    [.hpp], [.hh] or [.hxx]), and [shouldFixHeaderGuard] accepts every
    name. *)
Theorem default_policies :
  (forall p, Default.shouldSuggestEndifComment p = true
             <-> exists q, p = q +:+ ".h")
  /\ (forall p, Default.shouldSuggestToAddHeaderGuard p = true
                <-> exists q, p = q +:+ ".h")
  /\ (forall p, Default.shouldFixHeaderGuard p = true)
  /\ (forall q,
        Default.shouldSuggestEndifComment (q +:+ ".hpp") = false
        /\ Default.shouldSuggestEndifComment (q +:+ ".hh") = false
        /\ Default.shouldSuggestEndifComment (q +:+ ".hxx") = false
        /\ Default.shouldSuggestToAddHeaderGuard (q +:+ ".hpp") = false
        /\ Default.shouldSuggestToAddHeaderGuard (q +:+ ".hh") = false
        /\ Default.shouldSuggestToAddHeaderGuard (q +:+ ".hxx") = false).
Proof.
  split; [|split; [|split]].
  - intros p. apply endswith_iff.
  - intros p. apply endswith_iff.
  - reflexivity.
  - intros q.
    unfold Default.shouldSuggestEndifComment,
      Default.shouldSuggestToAddHeaderGuard.
    change ".hpp" with (".h" +:+ "pp"). change ".hh" with ("." +:+ "hh").
    change ".hxx" with (".h" +:+ "xx").
    rewrite <- !string_app_assoc.
    by rewrite !endswith_same_length.
Qed.

(** ** cleanPath *)

(** The iteration that [llvm/Support/Path.h] documents. *)
Example components_documented :
  map path.components ["/"; "/foo"; "foo/"; "/foo/bar"; "../"; "//net/foo"]
  = [["/"]; ["/"; "foo"]; ["foo"; "."]; ["/"; "foo"; "bar"]; [".."; "."];
     ["//net"; "/"; "foo"]].
Proof. reflexivity. Qed.

Example cleanPath_relative :
  map cleanPath ["include/foo/./bar.h"; "a/b/../c.h"; "../a.h"; "a//b/"]
  = ["include/foo/bar.h"; "a/c.h"; "a.h"; "a/b"].
Proof. reflexivity. Qed.

(** C8 does not hold of the code.  The loop of [cleanPath] puts a ['/']
    before every component but the first, also after the root directory
    ["/"]: ["/a/b"] becomes ["//a/b"].  That result starts with a network
    name, so cleaning it again gives ["//a///b"]: [cleanPath] is not
    idempotent on absolute paths. *)
Theorem cleanPath_doubles_root :
  path.components "/a/b" = ["/"; "a"; "b"]
  /\ cleanPath "/a/b" = "//a/b"
  /\ path.components "//a/b" = ["//a"; "/"; "b"]
  /\ cleanPath (cleanPath "/a/b") = "//a///b"
  /\ cleanPath (cleanPath "/a/b") <> cleanPath "/a/b".
Proof. repeat split; try reflexivity. discriminate. Qed.

(** ** The claims on a small translation unit *)

(** The header [include/foo/bar.h] with [#ifndef BAR_H], [#define BAR_H]
    and a bare [#endif]: one diagnostic renames both occurrences to
    [FOO_BAR_H], one gives the [#endif] its comment. *)
Example bar_h_unit :
  translationUnit Demo.SM Demo.Check Demo.barEvents emptyState
  = Done (tt, emptyState,
      [mkDiag 1008 msgStyle
         [CreateReplacement (getTokenRange 1008 1013) "FOO_BAR_H";
          CreateReplacement (getTokenRange 1023 1028) "FOO_BAR_H"];
       mkDiag 1900 msgEndif
         [CreateReplacement (getCharRange 1900 1905)
                            "endif  // FOO_BAR_H"]]).
Proof. vm_compute. reflexivity. Qed.

Example barEvents_state :
  for_each Demo.barEvents (handle Demo.SM) emptyState
  = Done (tt, Demo.barState, []).
Proof. vm_compute. reflexivity. Qed.

Lemma guard_removes_file_record_witness :
  exists FE st1 d1,
    guardFile Demo.SM Demo.barGuard = Some FE
    /\ for_each (Macros Demo.barState) (visitMacro Demo.SM Demo.Check)
                Demo.barState = Done (tt, st1, d1)
    /\ Files st1 !! cleanPath (FileEntry.getName FE) = None
    /\ reportedFor Demo.SM Demo.Check (cleanPath (FileEntry.getName FE)) st1
       = [].
Proof.
  destruct (guard_removes_file_record Demo.SM Demo.Check Demo.barState
              emptyState
              (emitted (EndOfMainFile Demo.SM Demo.Check) Demo.barState)
              Demo.barGuard)
    as (FE & st1 & d1 & Hfe & Hloop & Hnone & _ & _ & Hrep & _).
  - vm_compute. reflexivity.
  - constructor.
  - reflexivity.
  - exists FE, st1, d1.
    split; [exact Hfe|]. split; [exact Hloop|].
    split; [exact Hnone|exact Hrep].
Defined.



Lemma checkHeaderGuardDefinition_spec_witness :
  checkHeaderGuardDefinition Demo.Check 1008 1023 "include/foo/bar.h" "BAR_H"
                             Demo.barVisited
  = Done ("FOO_BAR_H", Demo.barVisited,
      [mkDiag 1008 msgStyle
         [CreateReplacement (getTokenRange 1008 1013) "FOO_BAR_H";
          CreateReplacement (getTokenRange 1023 1028) "FOO_BAR_H"]]).
Proof.
  apply (proj1 (proj2 (checkHeaderGuardDefinition_spec Demo.Check 1008 1023
                         "include/foo/bar.h" "BAR_H" Demo.barVisited))).
  repeat split; [discriminate|discriminate].
Defined.





(** C7 does not hold as stated: a unit that enters its main file only
    still gets a diagnostic when that file is a header without a guard. *)
Lemma header_as_main_file_is_reported :
  entersOnlyMainFile Demo.SM 2 Demo.soloEvents
  /\ translationUnit Demo.SM Demo.Check Demo.soloEvents emptyState
     = Done (tt, emptyState,
         [mkDiag 2000 msgMissing
            [CreateInsertion 2000
               ("#ifndef SOLO_H" +:+ LF +:+ "#define SOLO_H" +:+ LF +:+ LF);
             CreateInsertion 2999 (LF +:+ "#endif  // SOLO_H" +:+ LF)]]).
Proof.
  split; [|vm_compute; reflexivity].
  intros Loc FileType PrevFID Hin.
  apply list_elem_of_singleton in Hin. injection Hin as -> _ _.
  reflexivity.
Qed.

Lemma EndOfMainFile_clears_witness :
  translationUnit Demo.SM Demo.Check Demo.mainEvents emptyState
  = Done (tt, emptyState, []).
Proof.
  apply (proj2 (proj2 (EndOfMainFile_clears Demo.SM Demo.Check))
           Demo.mainEvents).
  - intros Tok MD Hin.
    apply elem_of_cons in Hin as [Heq|Hin]; [discriminate|].
    apply list_elem_of_singleton in Hin. injection Hin as _ ->.
    reflexivity.
  - intros Loc Prev FE Hin Hfe.
    apply elem_of_cons in Hin as [Heq|Hin].
    + injection Heq as -> _. vm_compute in Hfe. injection Hfe as <-.
      vm_compute. reflexivity.
    + apply list_elem_of_singleton in Hin. discriminate.
Defined.



(** ** [cleanPath] on relative paths *)

Lemma isComponent_piece s : isComponent s = true -> isPiece s.
Proof.
  unfold isComponent. rewrite !orb_true_iff, !String.eqb_eq.
  intros [[-> | ->]|Hn]; [by split|by split|].
  destruct s as [|c s]; [discriminate|]. unfold isName in Hn.
  apply andb_true_iff in Hn as [_ Hn]. by split.
Qed.

Lemma in_name_end cur s :
  noSeparator s = true -> path.in_name cur s = [cur +:+ s].
Proof.
  revert cur. induction s as [|c s IH]; intros cur Hs; simpl.
  - unfold String.append. f_equal. induction cur; simpl; [done|]. by f_equal.
  - simpl in Hs. apply andb_true_iff in Hs as [Hc Hs].
    apply negb_true_iff in Hc. rewrite Hc, IH by done.
    by rewrite string_app_assoc.
Qed.

Lemma in_name_sep cur s t :
  noSeparator s = true ->
  path.in_name cur (s +:+ String "/" t) = (cur +:+ s) :: path.after_sep t.
Proof.
  revert cur. induction s as [|c s IH]; intros cur Hs.
  - simpl. f_equal. clear. induction cur; simpl; [done|].
    rewrite string_app_cons. by f_equal.
  - simpl in Hs. apply andb_true_iff in Hs as [Hc Hs].
    apply negb_true_iff in Hc. rewrite string_app_cons. simpl.
    rewrite Hc, IH by done. by rewrite string_app_assoc.
Qed.

Lemma joinPath_cons x y l :
  joinPath (x :: y :: l) = x +:+ String "/" (joinPath (y :: l)).
Proof. reflexivity. Qed.

Lemma after_sep_join comps :
  comps <> [] -> Forall isPiece comps ->
  path.after_sep (joinPath comps) = comps.
Proof.
  induction comps as [|x comps IH]; intros Hne Hall; [done|].
  apply Forall_cons in Hall as [[Hx Hs] Hall].
  destruct x as [|c r]; [done|].
  simpl in Hs. apply andb_true_iff in Hs as [Hc Hs].
  apply negb_true_iff in Hc.
  destruct comps as [|y comps].
  - simpl. rewrite Hc. by rewrite in_name_end.
  - rewrite joinPath_cons, string_app_cons. simpl. rewrite Hc.
    rewrite in_name_sep by done. f_equal. by apply IH.
Qed.

Lemma components_join comps :
  Forall isPiece comps -> path.components (joinPath comps) = comps.
Proof.
  intros Hall. destruct comps as [|x comps]; [reflexivity|].
  rewrite <- (after_sep_join (x :: comps)) at 2 by done.
  apply Forall_cons in Hall as [[Hx Hs] _].
  destruct x as [|c r]; [done|].
  simpl in Hs. apply andb_true_iff in Hs as [Hc _].
  apply negb_true_iff in Hc.
  destruct comps as [|y comps].
  - simpl. by rewrite Hc.
  - rewrite joinPath_cons, string_app_cons. simpl. by rewrite Hc.
Qed.

Lemma joinPath_snoc kept I :
  kept <> [] -> joinPath (kept ++ [I]) = joinPath kept +:+ String "/" I.
Proof.
  induction kept as [|x kept IH]; intros Hne; [done|].
  destruct kept as [|y kept]; [reflexivity|].
  change ((x :: y :: kept) ++ [I])%list with (x :: (y :: kept) ++ [I])%list.
  change ((y :: kept) ++ [I])%list with (y :: kept ++ [I])%list in *.
  rewrite !joinPath_cons, IH by done.
  by rewrite string_app_assoc, string_app_cons.
Qed.

Lemma at_sep_app_l a b i :
  (i < String.length a)%nat -> path.at_sep (a +:+ b) i = path.at_sep a i.
Proof.
  intros Hi. unfold path.at_sep. by rewrite <- (append_correct1 a b i Hi).
Qed.

Lemma at_sep_app_r a b i :
  path.at_sep (a +:+ b) (String.length a + i) = path.at_sep b i.
Proof.
  unfold path.at_sep. rewrite (append_correct2 a b i).
  by rewrite (Nat.add_comm i).
Qed.

Lemma at_sep_noSeparator s i :
  noSeparator s = true -> path.at_sep s i = false.
Proof.
  revert i. induction s as [|c s IH]; intros i Hs; [by destruct i|].
  simpl in Hs. apply andb_true_iff in Hs as [Hc Hs].
  apply negb_true_iff in Hc. destruct i as [|i]; [exact Hc|].
  by apply IH.
Qed.

Lemma find_last_of_noSeparator s :
  noSeparator s = true -> path.find_last_of s = None.
Proof.
  induction s as [|c s IH]; intros Hs; [reflexivity|].
  simpl in Hs. apply andb_true_iff in Hs as [Hc Hs].
  apply negb_true_iff in Hc. simpl. by rewrite IH, Hc.
Qed.

Lemma find_last_of_snoc a x :
  noSeparator x = true ->
  path.find_last_of (a +:+ String "/" x) = Some (String.length a).
Proof.
  intros Hx. induction a as [|c a IH].
  - simpl. by rewrite find_last_of_noSeparator.
  - rewrite string_app_cons. simpl. by rewrite IH.
Qed.

Lemma substring_prefix a b :
  substring 0 (String.length a) (a +:+ b) = a.
Proof.
  induction a as [|c a IH]; [by destruct b|].
  rewrite string_app_cons. simpl. by rewrite IH.
Qed.

Lemma root_dir_start_relative s :
  path.at_sep s 0 = false -> path.root_dir_start s = None.
Proof.
  intros H0. unfold path.root_dir_start, path.double_sep. rewrite H0.
  simpl. by rewrite !andb_false_r.
Qed.

Lemma parent_path_piece x : isPiece x -> path.parent_path x = EmptyString.
Proof.
  intros [Hne Hs]. unfold path.parent_path, path.parent_path_end.
  assert (path.filename_pos x = 0%nat) as ->.
  { unfold path.filename_pos, path.double_sep.
    rewrite !(at_sep_noSeparator x) by done.
    rewrite !andb_false_r. by rewrite find_last_of_noSeparator. }
  assert (substring 0 0 x = EmptyString) as Hsub by by destruct x.
  rewrite Hsub. simpl. exact Hsub.
Qed.

Lemma parent_path_snoc p x :
  p <> EmptyString ->
  path.at_sep p 0 = false ->
  path.at_sep p (String.length p - 1) = false ->
  isPiece x ->
  path.parent_path (p +:+ String "/" x) = p.
Proof.
  intros Hp Hfirst Hlast [Hx Hs].
  assert (0 < String.length p)%nat as Hlen by (destruct p; [done|simpl; lia]).
  assert (0 < String.length x)%nat as Hlenx
    by (destruct x; [done|simpl; lia]).
  set (whole := p +:+ String "/" x).
  assert (path.at_sep whole 0 = false) as Hw0.
  { unfold whole. by rewrite at_sep_app_l. }
  assert (path.filename_pos whole = S (String.length p)) as Hpos.
  { unfold path.filename_pos, path.double_sep. rewrite Hw0. simpl.
    rewrite andb_false_r.
    assert (path.at_sep whole (String.length whole - 1) = false) as ->.
    { unfold whole. rewrite string_length_app. simpl.
      replace (String.length p + S (String.length x) - 1)%nat
        with (String.length p + S (String.length x - 1))%nat by lia.
      rewrite at_sep_app_r. simpl. unfold path.at_sep. simpl.
      by apply (at_sep_noSeparator x). }
    rewrite andb_false_r. unfold whole. rewrite find_last_of_snoc by done.
    rewrite andb_false_r. lia. }
  unfold path.parent_path, path.parent_path_end. rewrite Hpos.
  assert (substring 0 (S (String.length p)) whole = p +:+ "/") as ->.
  { unfold whole.
    change (String "/" x) with ("/" +:+ x).
    rewrite <- string_app_assoc.
    replace (S (String.length p)) with (String.length (p +:+ "/")).
    - apply substring_prefix.
    - rewrite string_length_app. simpl. lia. }
  rewrite root_dir_start_relative by by rewrite at_sep_app_l.
  assert (path.skip_back whole None (S (String.length p))
          = String.length p) as ->.
  { simpl.
    assert (path.at_sep whole (String.length p) = true) as ->.
    { unfold whole.
      pose proof (at_sep_app_r p (String "/" x) 0) as Hsep.
      rewrite Nat.add_0_r in Hsep. exact Hsep. }
    simpl. destruct (String.length p) as [|e] eqn:He; [lia|].
    simpl.
    assert (path.at_sep whole e = false) as ->.
    { unfold whole. rewrite at_sep_app_l by lia.
      simpl in Hlast. by rewrite Nat.sub_0_r in Hlast. }
    reflexivity. }
  rewrite andb_false_r. simpl. apply substring_prefix.
Qed.

Lemma joinPath_ends kept :
  kept <> [] -> Forall isPiece kept ->
  joinPath kept <> EmptyString
  /\ path.at_sep (joinPath kept) 0 = false
  /\ path.at_sep (joinPath kept) (String.length (joinPath kept) - 1) = false.
Proof.
  intros Hne Hall. split; [|split].
  - destruct kept as [|x kept]; [done|].
    apply Forall_cons in Hall as [[Hx _] _].
    destruct x as [|c r]; [done|]. by destruct kept.
  - destruct kept as [|x kept]; [done|].
    apply Forall_cons in Hall as [[Hx Hs] _].
    assert (0 < String.length x)%nat by (destruct x; [done|simpl; lia]).
    destruct kept as [|y kept].
    + by apply at_sep_noSeparator.
    + rewrite joinPath_cons, at_sep_app_l by done.
      by apply at_sep_noSeparator.
  - rewrite (app_removelast_last EmptyString Hne) in *.
    apply Forall_app in Hall as [_ Hlast].
    apply Forall_inv in Hlast as [Hx Hs].
    set (x := List.last kept EmptyString) in *.
    assert (0 < String.length x)%nat by (destruct x; [done|simpl; lia]).
    destruct (removelast kept) as [|y init].
    + simpl. by apply at_sep_noSeparator.
    + rewrite joinPath_snoc by done. rewrite string_length_app. simpl.
      set (n := String.length (joinPath (y :: init))).
      replace (n + S (String.length x) - 1)%nat
        with (n + S (String.length x - 1))%nat by lia.
      subst n.
      rewrite at_sep_app_r. by apply (at_sep_noSeparator x).
Qed.

Lemma parent_path_join kept :
  Forall isPiece kept ->
  path.parent_path (joinPath kept) = joinPath (removelast kept).
Proof.
  intros Hall. destruct (decide (kept = [])) as [->|Hne]; [reflexivity|].
  destruct (exists_last Hne) as (init & x & ->).
  rewrite removelast_last.
  apply Forall_app in Hall as [Hinit Hlast].
  apply Forall_inv in Hlast.
  destruct (decide (init = [])) as [->|Hinit_ne].
  - change (joinPath ([] ++ [x])) with x. by apply parent_path_piece.
  - rewrite joinPath_snoc by done.
    destruct (joinPath_ends _ Hinit_ne Hinit) as (? & ? & ?).
    by apply parent_path_snoc.
Qed.

Lemma removelast_Forall {A} (P : A -> Prop) (l : list A) :
  Forall P l -> Forall P (removelast l).
Proof.
  intros Hall. destruct (decide (l = [])) as [->|Hne]; [done|].
  destruct (exists_last Hne) as (init & x & ->).
  rewrite removelast_last. by apply Forall_app in Hall as [? _].
Qed.

Lemma popOrPush_pieces kept I :
  Forall isPiece kept -> isPiece I -> Forall isPiece (popOrPush kept I).
Proof.
  intros Hkept HI. unfold popOrPush.
  destruct (String.eqb I "."); [done|].
  destruct (String.eqb I ".."); [by apply removelast_Forall|].
  apply Forall_app. split; [done|]. by apply Forall_singleton.
Qed.

Lemma cleanPath_step_join kept I :
  Forall isPiece kept -> isPiece I ->
  cleanPath_step (joinPath kept) I = joinPath (popOrPush kept I).
Proof.
  intros Hkept HI. unfold cleanPath_step, popOrPush.
  destruct (String.eqb I "."); [reflexivity|].
  destruct (String.eqb I "..").
  - rewrite parent_path_join by done.
    destruct (decide (kept = [])) as [->|Hne]; [reflexivity|].
    destruct (exists_last Hne) as (init & x & ->).
    rewrite removelast_last.
    destruct (decide (init = [])) as [->|Hinit].
    + change (joinPath ([] ++ [x])) with x. by destruct x.
    + rewrite joinPath_snoc by done. apply substring_prefix.
  - destruct (decide (kept = [])) as [->|Hne]; [reflexivity|].
    destruct (joinPath_ends _ Hne Hkept) as (Hnonempty & _ & _).
    rewrite joinPath_snoc by done.
    destruct (joinPath kept) as [|c r]; [done|]. simpl.
    by rewrite string_app_assoc.
Qed.

Lemma cleanPath_fold comps kept :
  Forall isPiece kept ->
  Forall (fun s => isComponent s = true) comps ->
  fold_left cleanPath_step comps (joinPath kept)
  = joinPath (fold_left popOrPush comps kept).
Proof.
  revert kept. induction comps as [|I comps IH]; intros kept Hkept Hcomps;
    [reflexivity|].
  apply Forall_cons in Hcomps as [HI Hcomps].
  apply isComponent_piece in HI. simpl.
  rewrite cleanPath_step_join by done.
  apply IH; [|done]. by apply popOrPush_pieces.
Qed.

Lemma components_pieces comps :
  Forall (fun s => isComponent s = true) comps -> Forall isPiece comps.
Proof.
  intros Hcomps. eapply Forall_impl; [exact Hcomps|].
  intros s. apply isComponent_piece.
Qed.

Lemma cleanPath_joinPath comps :
  Forall (fun s => isComponent s = true) comps ->
  cleanPath (joinPath comps) = joinPath (resolveDots comps).
Proof.
  intros Hcomps. unfold cleanPath, resolveDots.
  rewrite components_join by by apply components_pieces.
  by apply (cleanPath_fold comps []).
Qed.

(** X1.  On a relative path whose components are names, ["."] and [".."],
    [cleanPath] undoes the dots: the result is the path of the names that
    are left when ["."] is skipped and [".."] removes the name before it
    (or nothing, when there is none). *)
Theorem cleanPath_resolves_dots comps :
  Forall (fun s => isComponent s = true) comps ->
  cleanPath (joinPath comps) = joinPath (resolveDots comps).
Proof.
  intros Hcomps. rewrite cleanPath_joinPath by done. reflexivity.
Qed.

Lemma isName_not_dots s :
  isName s = true -> String.eqb s "." = false /\ String.eqb s ".." = false.
Proof.
  destruct s as [|c s]; [done|]. unfold isName.
  intros [Hc _]%andb_true_iff. apply negb_true_iff, Ascii.eqb_neq in Hc.
  split; apply String.eqb_neq; intros [= -> _]; done.
Qed.

Lemma popOrPush_names kept I :
  Forall (fun s => isName s = true) kept -> isComponent I = true ->
  Forall (fun s => isName s = true) (popOrPush kept I).
Proof.
  intros Hkept HI. unfold popOrPush, isComponent in *.
  destruct (String.eqb I "."); [done|].
  destruct (String.eqb I ".."); [by apply removelast_Forall|].
  apply Forall_app. split; [done|]. by apply Forall_singleton.
Qed.

Lemma resolveDots_from_names comps kept :
  Forall (fun s => isName s = true) kept ->
  Forall (fun s => isComponent s = true) comps ->
  Forall (fun s => isName s = true) (fold_left popOrPush comps kept).
Proof.
  revert kept. induction comps as [|I comps IH]; intros kept Hkept Hcomps;
    [done|].
  apply Forall_cons in Hcomps as [HI Hcomps]. simpl.
  apply IH; [|done]. by apply popOrPush_names.
Qed.

Lemma isName_component s : isName s = true -> isComponent s = true.
Proof. intros Hs. unfold isComponent. rewrite Hs. apply orb_true_r. Qed.

Lemma resolveDots_of_names names kept :
  Forall (fun s => isName s = true) names ->
  fold_left popOrPush names kept = (kept ++ names)%list.
Proof.
  revert kept. induction names as [|I names IH]; intros kept Hnames.
  - by rewrite app_nil_r.
  - apply Forall_cons in Hnames as [HI Hnames]. simpl.
    unfold popOrPush at 2. destruct (isName_not_dots _ HI) as [-> ->].
    rewrite IH by done. by rewrite <- app_assoc.
Qed.

(** X2.  On such a path [cleanPath] is idempotent. *)
Theorem cleanPath_relative_idempotent comps :
  Forall (fun s => isComponent s = true) comps ->
  cleanPath (cleanPath (joinPath comps)) = cleanPath (joinPath comps).
Proof.
  intros Hcomps. rewrite (cleanPath_joinPath comps) by done.
  pose proof (resolveDots_from_names comps [] (List.Forall_nil _) Hcomps)
    as Hnames.
  fold (resolveDots comps) in Hnames.
  rewrite cleanPath_joinPath.
  - unfold resolveDots at 1. by rewrite resolveDots_of_names.
  - eapply Forall_impl; [exact Hnames|]. apply isName_component.
Qed.

(** X3.  No ["."] and no [".."] is left in the result: its components are
    names. *)
Theorem cleanPath_relative_names comps :
  Forall (fun s => isComponent s = true) comps ->
  Forall (fun s => isName s = true)
         (path.components (cleanPath (joinPath comps))).
Proof.
  intros Hcomps. rewrite (cleanPath_joinPath comps) by done.
  pose proof (resolveDots_from_names comps [] (List.Forall_nil _) Hcomps)
    as Hnames.
  fold (resolveDots comps) in Hnames.
  rewrite components_join; [done|].
  apply components_pieces.
  eapply Forall_impl; [exact Hnames|]. apply isName_component.
Qed.

(** X4.  A [".."] with nothing before it is dropped: the path means the
    same to [cleanPath] without it. *)
Theorem cleanPath_leading_dotdot comps :
  Forall (fun s => isComponent s = true) comps ->
  cleanPath (joinPath (".." :: comps)) = cleanPath (joinPath comps).
Proof.
  intros Hcomps. rewrite !cleanPath_joinPath; [done|done|].
  by apply Forall_cons.
Qed.

Lemma after_sep_join_slash comps :
  comps <> [] -> Forall isPiece comps ->
  path.after_sep (joinPath comps +:+ "/") = (comps ++ ["."])%list.
Proof.
  induction comps as [|x comps IH]; intros Hne Hall; [done|].
  apply Forall_cons in Hall as [[Hx Hs] Hall].
  destruct x as [|c r]; [done|].
  simpl in Hs. apply andb_true_iff in Hs as [Hc Hs].
  apply negb_true_iff in Hc.
  destruct comps as [|y comps].
  - change (joinPath [String c r]) with (String c r).
    rewrite string_app_cons. simpl. rewrite Hc.
    by rewrite (in_name_sep _ r EmptyString).
  - rewrite joinPath_cons, string_app_assoc, !string_app_cons.
    simpl. rewrite Hc. rewrite in_name_sep by done. f_equal.
    by apply IH.
Qed.

(** X5.  A separator at the end of such a path makes no difference. *)
Theorem cleanPath_trailing_separator comps :
  comps <> [] ->
  Forall (fun s => isComponent s = true) comps ->
  cleanPath (joinPath comps +:+ "/") = cleanPath (joinPath comps).
Proof.
  intros Hne Hcomps.
  pose proof (components_pieces _ Hcomps) as Hpieces.
  assert (path.components (joinPath comps +:+ "/") = (comps ++ ["."])%list)
    as Hsplit.
  { rewrite <- (after_sep_join_slash comps) by done.
    destruct comps as [|x comps]; [done|].
    apply Forall_cons in Hpieces as [[Hx Hs] _].
    destruct x as [|c r]; [done|].
    simpl in Hs. apply andb_true_iff in Hs as [Hc _].
    apply negb_true_iff in Hc.
    destruct comps as [|y comps].
    - change (joinPath [String c r]) with (String c r).
      rewrite string_app_cons. simpl. by rewrite Hc.
    - rewrite joinPath_cons, string_app_assoc, !string_app_cons.
      simpl. by rewrite Hc. }
  unfold cleanPath at 1. rewrite Hsplit, fold_left_app. simpl.
  unfold cleanPath_step at 1. simpl.
  unfold cleanPath. by rewrite components_join.
Qed.

Lemma cleanPath_resolves_dots_witness :
  cleanPath "include/./foo/../bar.h" = "include/bar.h".
Proof.
  apply (cleanPath_resolves_dots ["include"; "."; "foo"; ".."; "bar.h"]).
  repeat constructor.
Defined.

Lemma cleanPath_relative_idempotent_witness :
  cleanPath (cleanPath "include/./foo/../bar.h")
  = cleanPath "include/./foo/../bar.h".
Proof.
  apply (cleanPath_relative_idempotent
           ["include"; "."; "foo"; ".."; "bar.h"]).
  repeat constructor.
Defined.

Lemma cleanPath_relative_names_witness :
  Forall (fun s => isName s = true)
         (path.components (cleanPath "include/./foo/../bar.h")).
Proof.
  apply (cleanPath_relative_names ["include"; "."; "foo"; ".."; "bar.h"]).
  repeat constructor.
Defined.

Lemma cleanPath_leading_dotdot_witness :
  cleanPath "../../lib/a.h" = cleanPath "../lib/a.h".
Proof.
  apply (cleanPath_leading_dotdot [".."; "lib"; "a.h"]).
  repeat constructor.
Defined.

Lemma cleanPath_trailing_separator_witness :
  cleanPath "lib/sub/" = cleanPath "lib/sub".
Proof.
  apply (cleanPath_trailing_separator ["lib"; "sub"]).
  - discriminate.
  - repeat constructor.
Defined.

(** ** What the event handlers record *)

Section Recording.

Variable SM : SourceManager.

(** What one event does to each of the four containers. *)
Lemma handle_effect e st :
  handle SM e st =
    Done (tt,
          mkState
            (Macros st ++ definedMacros [e])
            (match e with
             | EvFileChanged Loc EnterFile C_User _ =>
                 match getFileEntryForID SM (getFileID SM Loc) with
                 | Some FE =>
                     <[cleanPath (FileEntry.getName FE) := FE]> (Files st)
                 | None => Files st
                 end
             | _ => Files st
             end)
            (match e with
             | EvIfndef Loc Tok None =>
                 <[getIdentifierInfo Tok := (Loc, getLocation Tok)]>
                   (Ifndefs st)
             | _ => Ifndefs st
             end)
            (match e with
             | EvEndif Loc IfLoc => <[IfLoc := Loc]> (EndIfs st)
             | _ => EndIfs st
             end),
          []).
Proof.
  destruct st as [Ms Fs Is Es].
  destruct e as [Loc [] [] Prev|Loc Tok [MD|]|Tok MD|Loc IfLoc]; simpl;
    unfold FileChanged, Ifndef, MacroDefined, Endif, modify, ret,
      setFiles, setMacros, setIfndefs, setEndIfs;
    simpl; rewrite ?app_nil_r; try reflexivity.
  by destruct (getFileEntryForID SM (getFileID SM Loc)).
Qed.

Lemma events_split pre e post st st0 ds :
  for_each (pre ++ e :: post) (handle SM) st = Done (tt, st0, ds) ->
  exists st1 st2,
    for_each pre (handle SM) st = Done (tt, st1, [])
    /\ handle SM e st1 = Done (tt, st2, [])
    /\ for_each post (handle SM) st2 = Done (tt, st0, []).
Proof.
  intros Hrun.
  destruct (events_inv SM pre st) as (st1 & Hpre & _).
  destruct (handle_Done SM e st1) as (st2 & He).
  destruct (events_inv SM post st2) as (st0' & Hpost & _).
  exists st1, st2. repeat split; [done|done|].
  rewrite for_each_app in Hrun.
  rewrite (bind_silent _ _ _ _ _ Hpre) in Hrun. simpl in Hrun.
  rewrite (bind_silent _ _ _ _ _ He) in Hrun.
  rewrite Hpost in Hrun. injection Hrun as <- _. exact Hpost.
Qed.


(** X6.  The handlers of the events never stop and emit no diagnostic, and
    [Macros] gains the macro definitions of the events, every one of them
    and in their order, whether or not they are guards; no other event
    touches [Macros]. *)
Theorem events_record_macros events st :
  exists st0,
    for_each events (handle SM) st = Done (tt, st0, [])
    /\ Macros st0 = (Macros st ++ definedMacros events)%list.
Proof.
  destruct (events_inv SM events st) as (st0 & Hrun & _ & _ & _ & Hm).
  by exists st0.
Qed.

(** X7.  A record of [Files] after the events was there before them, or it
    is the file entry of a user file that the events enter, under the
    [cleanPath] of the entry's name: system headers, files without an
    entry and changes that enter no file leave no record. *)
Theorem files_hold_entered_user_files events st st0 ds FileName FE :
  for_each events (handle SM) st = Done (tt, st0, ds) ->
  Files st0 !! FileName = Some FE ->
  Files st !! FileName = Some FE
  \/ exists Loc Prev,
       EvFileChanged Loc EnterFile C_User Prev ∈ events
       /\ getFileEntryForID SM (getFileID SM Loc) = Some FE
       /\ FileName = cleanPath (FileEntry.getName FE).
Proof.
  intros Hrun Hk.
  destruct (events_inv SM events st) as (st0' & Hrun' & _ & _ & Hsrc & _).
  rewrite Hrun' in Hrun. injection Hrun as <- _. by apply Hsrc.
Qed.

Lemma files_kept post st st0 FileName :
  for_each post (handle SM) st = Done (tt, st0, []) ->
  (forall Loc Prev FE,
     EvFileChanged Loc EnterFile C_User Prev ∈ post ->
     getFileEntryForID SM (getFileID SM Loc) = Some FE ->
     cleanPath (FileEntry.getName FE) <> FileName) ->
  Files st0 !! FileName = Files st !! FileName.
Proof.
  revert st. induction post as [|e post IH]; intros st Hrun Hother.
  - by injection Hrun as <-.
  - simpl in Hrun. rewrite (bind_silent _ _ _ _ _ (handle_effect e st)) in Hrun.
    rewrite (IH _ Hrun)
      by (intros Loc' Prev' FE' Hin; apply (Hother Loc' Prev' FE'); by right).
    simpl. destruct e as [Loc [] [] Prev| | |]; try reflexivity.
    destruct (getFileEntryForID SM (getFileID SM Loc)) as [FE|] eqn:Hfe;
      [|reflexivity].
    apply lookup_insert_ne. apply (Hother Loc Prev FE); [left|exact Hfe].
Qed.

(** X8.  When a path is entered more than once, its record holds the file
    entry of the last entry: [Files[FileName] = FE] overwrites. *)
Theorem files_last_entry_wins pre post Loc Prev FE st st0 ds :
  for_each (pre ++ EvFileChanged Loc EnterFile C_User Prev :: post)
           (handle SM) st = Done (tt, st0, ds) ->
  getFileEntryForID SM (getFileID SM Loc) = Some FE ->
  (forall Loc' Prev' FE',
     EvFileChanged Loc' EnterFile C_User Prev' ∈ post ->
     getFileEntryForID SM (getFileID SM Loc') = Some FE' ->
     cleanPath (FileEntry.getName FE') <> cleanPath (FileEntry.getName FE)) ->
  Files st0 !! cleanPath (FileEntry.getName FE) = Some FE.
Proof.
  intros Hrun Hfe Hother.
  apply events_split in Hrun as (st1 & st2 & _ & He & Hpost).
  rewrite (files_kept _ _ _ _ Hpost Hother).
  rewrite handle_effect in He. injection He as <-. simpl.
  rewrite Hfe. apply lookup_insert_eq.
Qed.

Lemma ifndefs_kept post st st0 II :
  for_each post (handle SM) st = Done (tt, st0, []) ->
  (forall Loc Tok,
     EvIfndef Loc Tok None ∈ post -> getIdentifierInfo Tok <> II) ->
  Ifndefs st0 !! II = Ifndefs st !! II.
Proof.
  revert st. induction post as [|e post IH]; intros st Hrun Hother.
  - by injection Hrun as <-.
  - simpl in Hrun. rewrite (bind_silent _ _ _ _ _ (handle_effect e st)) in Hrun.
    rewrite (IH _ Hrun)
      by (intros Loc' Tok' Hin; apply (Hother Loc' Tok'); by right).
    simpl. destruct e as [|Loc Tok [MD|]| |]; try reflexivity.
    apply lookup_insert_ne. apply (Hother Loc Tok). left.
Qed.

(** X9.  After the events, [Ifndefs] holds for an identifier the directive
    and name locations of the last [#ifndef] that tested it while it was
    not defined; an [#ifndef] of a defined macro changes nothing. *)
Theorem ifndefs_last_write_wins pre post Loc Tok st st0 ds :
  for_each (pre ++ EvIfndef Loc Tok None :: post) (handle SM) st
    = Done (tt, st0, ds) ->
  (forall Loc' Tok',
     EvIfndef Loc' Tok' None ∈ post ->
     getIdentifierInfo Tok' <> getIdentifierInfo Tok) ->
  Ifndefs st0 !! getIdentifierInfo Tok = Some (Loc, getLocation Tok).
Proof.
  intros Hrun Hother.
  apply events_split in Hrun as (st1 & st2 & _ & He & Hpost).
  rewrite (ifndefs_kept _ _ _ _ Hpost Hother).
  rewrite handle_effect in He. injection He as <-. simpl.
  apply lookup_insert_eq.
Qed.

Lemma endifs_kept post st st0 IfLoc :
  for_each post (handle SM) st = Done (tt, st0, []) ->
  (forall Loc IfLoc', EvEndif Loc IfLoc' ∈ post -> IfLoc' <> IfLoc) ->
  EndIfs st0 !! IfLoc = EndIfs st !! IfLoc.
Proof.
  revert st. induction post as [|e post IH]; intros st Hrun Hother.
  - by injection Hrun as <-.
  - simpl in Hrun. rewrite (bind_silent _ _ _ _ _ (handle_effect e st)) in Hrun.
    rewrite (IH _ Hrun)
      by (intros Loc' IfLoc' Hin; apply (Hother Loc' IfLoc'); by right).
    simpl. destruct e as [| | |Loc IfLoc']; try reflexivity.
    apply lookup_insert_ne. apply (Hother Loc IfLoc'). left.
Qed.

(** X10.  After the events, [EndIfs] maps the location of a conditional
    directive to the location of the last [#endif] reported for it. *)
Theorem endifs_last_write_wins pre post Loc IfLoc st st0 ds :
  for_each (pre ++ EvEndif Loc IfLoc :: post) (handle SM) st
    = Done (tt, st0, ds) ->
  (forall Loc' IfLoc', EvEndif Loc' IfLoc' ∈ post -> IfLoc' <> IfLoc) ->
  EndIfs st0 !! IfLoc = Some Loc.
Proof.
  intros Hrun Hother.
  apply events_split in Hrun as (st1 & st2 & _ & He & Hpost).
  rewrite (endifs_kept _ _ _ _ Hpost Hother).
  rewrite handle_effect in He. injection He as <-. simpl.
  apply lookup_insert_eq.
Qed.

End Recording.

(** ** The diagnostics of [EndOfMainFile] *)

Section Diagnostics.

Variable SM : SourceManager.
Variable Check : HeaderGuardCheck.

Lemma checkHeaderGuardDefinition_shape Ifndef Define FileName Cur st :
  exists N ds,
    checkHeaderGuardDefinition Check Ifndef Define FileName Cur st
      = Done (N, st, ds)
    /\ Forall styleDiag ds /\ (length ds <= 1)%nat.
Proof.
  unfold checkHeaderGuardDefinition.
  destruct (isValid Ifndef) eqn:Hv; simpl.
  - destruct (_ && _); eexists _, _; (split; [reflexivity|]); simpl;
      (split; [|lia]); repeat constructor; simpl; [exact Hv|].
    by eexists _, _, _.
  - eexists _, _. split; [reflexivity|]. simpl. split; [constructor|lia].
Qed.

Lemma checkEndifComment_shape EndIf N st :
  exists ds,
    checkEndifComment SM EndIf N st = Done (tt, st, ds)
    /\ Forall endifDiag ds /\ (length ds <= 1)%nat.
Proof.
  unfold checkEndifComment.
  destruct (isValid EndIf) eqn:Hv; simpl.
  - destruct (_ && _); eexists; (split; [reflexivity|]); simpl;
      (split; [|lia]); repeat constructor; simpl; [exact Hv|].
    by eexists _, _.
  - eexists. split; [reflexivity|]. simpl. split; [constructor|lia].
Qed.

(** What one round of the first loop emits, and what it does to [Ifndefs]
    and [EndIfs]. *)
Lemma visitMacro_round MacroEntry st st' ds :
  visitMacro SM Check MacroEntry st = Done (tt, st', ds) ->
  (exists d1 d2,
     ds = (d1 ++ d2)%list
     /\ Forall styleDiag d1 /\ Forall endifDiag d2
     /\ (length d1 <= 1)%nat /\ (length d2 <= 1)%nat)
  /\ (isUsedForHeaderGuard (getMacroInfo MacroEntry.2) = false -> ds = [])
  /\ ((forall FE, guardFile SM MacroEntry = Some FE ->
         shouldFixHeaderGuard Check (cleanPath (FileEntry.getName FE))
           = false) ->
      ds = [] /\ Ifndefs st' = Ifndefs st /\ EndIfs st' = EndIfs st)
  /\ (Ifndefs st' = Ifndefs st
      \/ exists II, Ifndefs st' = (subscript (0%N, 0%N) (Ifndefs st) II).2)
  /\ (EndIfs st' = EndIfs st
      \/ exists IfLoc, EndIfs st' = (subscript 0%N (EndIfs st) IfLoc).2).
Proof.
  intros Hrun.
  assert (Hsilent : st' = st \/ (exists FileName,
            st' = setFiles (delete FileName (Files st)) st) -> ds = [] ->
          (exists d1 d2 : list Diagnostic,
             ds = (d1 ++ d2)%list
             /\ Forall styleDiag d1 /\ Forall endifDiag d2
             /\ (length d1 <= 1)%nat /\ (length d2 <= 1)%nat)
          /\ (isUsedForHeaderGuard (getMacroInfo MacroEntry.2) = false ->
              ds = [])
          /\ ((forall FE, guardFile SM MacroEntry = Some FE ->
                 shouldFixHeaderGuard Check
                   (cleanPath (FileEntry.getName FE)) = false) ->
              ds = [] /\ Ifndefs st' = Ifndefs st /\ EndIfs st' = EndIfs st)
          /\ (Ifndefs st' = Ifndefs st
              \/ exists II,
                   Ifndefs st' = (subscript (0%N, 0%N) (Ifndefs st) II).2)
          /\ (EndIfs st' = EndIfs st
              \/ exists IfLoc,
                   EndIfs st' = (subscript 0%N (EndIfs st) IfLoc).2)).
  { intros Hst ->.
    assert (Ifndefs st' = Ifndefs st /\ EndIfs st' = EndIfs st) as [HI HE].
    { by destruct Hst as [->|[FileName ->]]. }
    split; [exists [], []; repeat split; try constructor; simpl; lia|].
    repeat split; try done; by left. }
  destruct (isUsedForHeaderGuard (getMacroInfo MacroEntry.2)) eqn:Hg.
  2:{ rewrite visitMacro_skip in Hrun by done. injection Hrun as <- <-.
      apply Hsilent; [by left|done]. }
  destruct (guardFile SM MacroEntry) as [FE|] eqn:Hfe.
  2:{ by rewrite visitMacro_null in Hrun. }
  destruct (shouldFixHeaderGuard Check (cleanPath (FileEntry.getName FE)))
    eqn:Hfix.
  2:{ rewrite (visitMacro_nofix _ _ _ _ FE) in Hrun by done.
      injection Hrun as <- <-. apply Hsilent; [right; by eexists|done]. }
  rewrite (visitMacro_fix _ _ _ _ FE) in Hrun by done.
  cbv zeta in Hrun. set (st3 := mkState _ _ _ _) in Hrun.
  apply bind_Done_inv in Hrun as (N & st1 & d1 & d2 & Hn & He & ->).
  edestruct (checkHeaderGuardDefinition_shape) as (N' & d1' & Hn' & Hd1 & Hl1).
  rewrite Hn' in Hn. injection Hn as -> <- ->.
  assert (st' = st3 /\ Forall endifDiag d2 /\ (length d2 <= 1)%nat)
    as (-> & Hd2 & Hl2).
  { destruct (shouldSuggestEndifComment Check _).
    - edestruct (checkEndifComment_shape) as (d2' & He' & Hd2 & Hl2).
      rewrite He' in He. by injection He as <- <-.
    - injection He as <- <-. repeat split; [constructor|simpl; lia]. }
  split; [by exists d1, d2|]. split; [done|]. split.
  - intros Hno. specialize (Hno FE eq_refl). congruence.
  - split; right; subst st3; simpl; by eexists.
Qed.


Lemma first_loop_diagnostics l st st1 ds :
  for_each l (visitMacro SM Check) st = Done (tt, st1, ds) ->
  Forall (fun d => styleDiag d \/ endifDiag d) ds
  /\ (length ds <= 2 * guardCount l)%nat
  /\ Files st1 ⊆ Files st.
Proof.
  revert st st1 ds. induction l as [|e l IH]; intros st st1 ds Hrun.
  - injection Hrun as <- <-.
    split; [constructor|]. split; [simpl; lia|done].
  - simpl in Hrun.
    apply bind_Done_inv in Hrun as ([] & st2 & da & db & He & Hl & ->).
    apply IH in Hl as (Hb & Hlb & Hsub).
    pose proof (visitMacro_round _ _ _ _ He)
      as ((d1 & d2 & -> & Hd1 & Hd2 & Hl1 & Hl2) & Hskip & _).
    pose proof (visitMacro_Done_inv SM Check _ _ _ _ He) as (_ & _ & Hfiles).
    repeat split.
    + repeat (apply Forall_app; split); [| |done].
      * eapply Forall_impl; [exact Hd1|]. intros d Hd. by left.
      * eapply Forall_impl; [exact Hd2|]. intros d Hd. by right.
    + unfold guardCount in *. simpl.
      destruct (isUsedForHeaderGuard (getMacroInfo e.2)) eqn:Hg.
      * rewrite !length_app. simpl. lia.
      * specialize (Hskip eq_refl).
        destruct d1; [|done]. destruct d2; [|done]. simpl. lia.
    + etrans; [exact Hsub|].
      destruct (isUsedForHeaderGuard (getMacroInfo e.2)).
      * destruct Hfiles as (FE & _ & ->). apply delete_subseteq.
      * by destruct Hfiles as [-> _].
Qed.

Lemma guardlessHeader_shape FE st :
  Forall (fun d => nonTopmostDiag d \/ missingDiag d)
         (emitted (guardlessHeader SM Check FE) st).
Proof.
  unfold emitted. rewrite guardlessHeader_cases. cbv zeta.
  destruct (negb _); [constructor|].
  destruct (isInvalid _) eqn:Hinv; [constructor|].
  destruct (List.find _ _); (constructor; [|constructor]).
  - left. by split.
  - right. split; [done|]. split.
    + simpl. unfold isValid. unfold isInvalid in Hinv. by rewrite Hinv.
    + by eexists _, _, _.
Qed.

Lemma report_diagnostics st :
  Forall (fun d => nonTopmostDiag d \/ missingDiag d)
         (flat_map (fun FE => emitted (guardlessHeader SM Check FE) st)
                   (map_to_list (Files st)))
  /\ (length (flat_map (fun FE => emitted (guardlessHeader SM Check FE) st)
                       (map_to_list (Files st))) <= size (Files st))%nat.
Proof.
  rewrite <- length_map_to_list.
  induction (map_to_list (Files st)) as [|FE l [IH1 IH2]]; simpl.
  - split; [constructor|lia].
  - split.
    + apply Forall_app. split; [apply guardlessHeader_shape|done].
    + rewrite length_app.
      pose proof (guardlessHeader_at_most_one SM Check FE st). lia.
Qed.

(** X11.  The diagnostics of [EndOfMainFile] come in two runs: first those
    on guards that exist (a diagnostic of the naming check with its two
    replacements over token ranges of equal length, or one of the [#endif]
    check with its one replacement), then those on headers without a guard
    (one without fix-its, or one with two insertions, the first at its own
    location).  Every diagnostic that carries fix-its is at a valid
    location. *)
Theorem EndOfMainFile_diagnostics st st' ds :
  EndOfMainFile SM Check st = Done (tt, st', ds) ->
  exists d1 d2,
    ds = (d1 ++ d2)%list
    /\ Forall (fun d => styleDiag d \/ endifDiag d) d1
    /\ Forall (fun d => nonTopmostDiag d \/ missingDiag d) d2
    /\ Forall (fun d => FixIts d <> [] -> isValid (DiagLoc d) = true) ds.
Proof.
  intros Hrun. rewrite EndOfMainFile_eq in Hrun.
  destruct (for_each (Macros st) (visitMacro SM Check) st)
    as [[[[] st1] d1]|] eqn:Hloop; [|discriminate].
  injection Hrun as <- <-.
  apply first_loop_diagnostics in Hloop as (Hd1 & _ & _).
  destruct (report_diagnostics st1) as [Hd2 _].
  eexists _, _. repeat split; [exact Hd1|exact Hd2|].
  apply Forall_app. split.
  - eapply Forall_impl; [exact Hd1|].
    by intros d [(_ & Hv & _)|(_ & Hv & _)] _.
  - eapply Forall_impl; [exact Hd2|].
    intros d [[_ Hnone]|(_ & Hv & _)] Hfix; [done|exact Hv].
Qed.

(** X12.  [EndOfMainFile] emits at most two diagnostics for each recorded
    macro that is used as a header guard, and at most one for each record
    of [Files]. *)
Theorem EndOfMainFile_diagnostics_bound st st' ds :
  EndOfMainFile SM Check st = Done (tt, st', ds) ->
  (length ds <= 2 * guardCount (Macros st) + size (Files st))%nat.
Proof.
  intros Hrun. rewrite EndOfMainFile_eq in Hrun.
  destruct (for_each (Macros st) (visitMacro SM Check) st)
    as [[[[] st1] d1]|] eqn:Hloop; [|discriminate].
  injection Hrun as <- <-.
  apply first_loop_diagnostics in Hloop as (_ & Hl1 & Hsub).
  destruct (report_diagnostics st1) as [_ Hl2].
  apply map_subseteq_size in Hsub. rewrite length_app. lia.
Qed.

(** X13.  When [shouldFixHeaderGuard] declines every path, the first loop
    of [EndOfMainFile] emits nothing and leaves [Macros], [Ifndefs] and
    [EndIfs] as they are: it only erases the records of the guarded
    files. *)
Theorem declined_fix_is_silent l st st1 ds :
  (forall FileName, shouldFixHeaderGuard Check FileName = false) ->
  for_each l (visitMacro SM Check) st = Done (tt, st1, ds) ->
  ds = [] /\ Ifndefs st1 = Ifndefs st /\ EndIfs st1 = EndIfs st
  /\ Macros st1 = Macros st.
Proof.
  intros Hno. revert st st1 ds.
  induction l as [|e l IH]; intros st st1 ds Hrun.
  - by injection Hrun as <- <-.
  - simpl in Hrun.
    apply bind_Done_inv in Hrun as ([] & st2 & da & db & He & Hl & ->).
    apply IH in Hl as (-> & HI & HE & HM).
    pose proof (visitMacro_Done_inv SM Check _ _ _ _ He) as (HM2 & _).
    apply visitMacro_round in He as (_ & _ & Hdecl & _).
    destruct Hdecl as (-> & HI2 & HE2); [by intros|].
    repeat split; congruence.
Qed.

End Diagnostics.

(** ** Guards that are in order *)

Section InOrder.

Variable SM : SourceManager.
Variable Check : HeaderGuardCheck.

(** X14.  A guard that is in order gets no diagnostic: when its [#ifndef]
    and the [#endif] of that [#ifndef] were recorded, its name is the one
    [getHeaderGuard] derives, or that name with one more underscore, and,
    where [shouldSuggestEndifComment] asks for it, the line of the
    [#endif] ends with the name in a comment, [EndOfMainFile] only erases
    the record of the file. *)
Theorem conforming_guard_is_silent MacroEntry st FE Loc NameLoc EndIf :
  isUsedForHeaderGuard (getMacroInfo MacroEntry.2) = true ->
  guardFile SM MacroEntry = Some FE ->
  let FileName := cleanPath (FileEntry.getName FE) in
  let II := getIdentifierInfo MacroEntry.1 in
  let Cur := IdentifierInfo.getName II in
  let canonical := getHeaderGuard Check FileName Cur in
  let Data := getCharacterData SM EndIf in
  let Line := substring 0 (strcspn_crlf Data) Data in
  Ifndefs st !! II = Some (Loc, NameLoc) ->
  EndIfs st !! Loc = Some EndIf ->
  Cur = canonical \/ Cur = canonical +:+ "_" ->
  (shouldSuggestEndifComment Check FileName = true ->
   StringRef.endswith Line ("// " +:+ Cur) = true
   \/ StringRef.endswith Line ("/* " +:+ Cur +:+ " */") = true) ->
  visitMacro SM Check MacroEntry st
    = Done (tt, setFiles (delete FileName (Files st)) st, []).
Proof.
  intros Hg Hfe FileName II Cur canonical Data Line Hif Hend Hname Hcomment.
  destruct (shouldFixHeaderGuard Check FileName) eqn:Hfix.
  2:{ by apply visitMacro_nofix. }
  rewrite (visitMacro_fix _ _ _ _ FE) by done. cbv zeta.
  fold FileName II. rewrite (subscript_hit _ _ _ _ Hif). simpl.
  rewrite (subscript_hit _ _ _ _ Hend). simpl. fold Cur.
  assert (forall st0,
            checkHeaderGuardDefinition Check NameLoc
              (getLocation MacroEntry.1) FileName Cur st0
            = Done (Cur, st0, [])) as Hnaming.
  { intros st0. unfold checkHeaderGuardDefinition. fold canonical.
    destruct Hname as [Heq|Heq].
    - rewrite <- Heq, String.eqb_refl. simpl. by rewrite andb_false_r.
    - rewrite <- Heq, String.eqb_refl. simpl. by rewrite andb_false_r. }
  rewrite (bind_silent _ _ _ _ _ (Hnaming _)).
  destruct (shouldSuggestEndifComment Check FileName); [|reflexivity].
  unfold checkEndifComment. fold Data. fold Line.
  destruct (Hcomment eq_refl) as [-> | ->]; simpl;
    by rewrite ?andb_false_r.
Qed.

Lemma strcspn_crlf_stop (a rest : string) (c : ascii) :
  noLineEnd a = true ->
  Ascii.eqb c "013" || Ascii.eqb c "010" || Ascii.eqb c "000" = true ->
  strcspn_crlf (a +:+ String c rest) = String.length a.
Proof.
  intros Ha Hc. induction a as [|x a IH].
  - simpl. by rewrite Hc.
  - simpl in Ha. apply andb_true_iff in Ha as [Hx Ha].
    apply negb_true_iff in Hx. rewrite string_app_cons. simpl.
    by rewrite Hx, IH.
Qed.

(** X15.  The text the fix-it of the [#endif] check writes passes the
    check: when the line of the [#endif] reads [endif  // N], for a guard
    [N] without a line end in it, [checkEndifComment] emits nothing. *)
Theorem endif_fix_satisfies_check EndIf N rest st :
  noLineEnd N = true ->
  getCharacterData SM EndIf = ("endif  // " +:+ N) +:+ LF +:+ rest ->
  checkEndifComment SM EndIf N st = Done (tt, st, []).
Proof.
  intros HN Hdata. unfold checkEndifComment. rewrite Hdata.
  assert (strcspn_crlf (("endif  // " +:+ N) +:+ LF +:+ rest)
          = String.length ("endif  // " +:+ N)) as ->.
  { apply strcspn_crlf_stop; [|reflexivity]. exact HN. }
  rewrite substring_prefix.
  assert (StringRef.endswith ("endif  // " +:+ N) ("// " +:+ N) = true)
    as ->.
  { apply endswith_iff. by exists "endif  ". }
  simpl. by rewrite andb_false_r.
Qed.

End InOrder.

(** ** What the first loop leaves of the recorded locations *)

Lemma subscript_extends {K} `{Countable K} {V} (dflt : V) (m : gmap K V) k :
  m ⊆ (subscript dflt m k).2
  /\ (forall k' v,
        (subscript dflt m k).2 !! k' = Some v ->
        m !! k' = Some v \/ (m !! k' = None /\ v = dflt)).
Proof.
  unfold subscript. destruct (m !! k) as [v0|] eqn:Hk; simpl.
  - split; [done|]. intros k' v Hv. by left.
  - split; [by apply insert_subseteq|]. intros k' v.
    destruct (decide (k = k')) as [<-|Hne].
    + rewrite lookup_insert_eq. intros [= <-]. by right.
    + rewrite lookup_insert_ne by done. intros Hv. by left.
Qed.

Section Untouched.

Variable SM : SourceManager.
Variable Check : HeaderGuardCheck.

(** X16.  The lookups of the first loop never change what was recorded:
    every entry of [Ifndefs] and [EndIfs] is still there afterwards with
    its locations, and an entry that was not there before holds only
    invalid locations. *)
Theorem first_loop_keeps_recorded_locations l st st1 ds :
  for_each l (visitMacro SM Check) st = Done (tt, st1, ds) ->
  Ifndefs st ⊆ Ifndefs st1
  /\ EndIfs st ⊆ EndIfs st1
  /\ (forall II Locs,
        Ifndefs st1 !! II = Some Locs ->
        Ifndefs st !! II = Some Locs
        \/ (Ifndefs st !! II = None
            /\ isValid Locs.1 = false /\ isValid Locs.2 = false))
  /\ (forall IfLoc Loc,
        EndIfs st1 !! IfLoc = Some Loc ->
        EndIfs st !! IfLoc = Some Loc
        \/ (EndIfs st !! IfLoc = None /\ isValid Loc = false)).
Proof.
  revert st st1 ds. induction l as [|e l IH]; intros st st1 ds Hrun.
  - injection Hrun as <- <-. repeat split; try done; intros; by left.
  - simpl in Hrun.
    apply bind_Done_inv in Hrun as ([] & st2 & da & db & He & Hl & ->).
    apply IH in Hl as (HI & HE & HIn & HEn).
    apply visitMacro_round in He as (_ & _ & _ & HI2 & HE2).
    assert (Ifndefs st ⊆ Ifndefs st2
            /\ forall II Locs,
                 Ifndefs st2 !! II = Some Locs ->
                 Ifndefs st !! II = Some Locs
                 \/ (Ifndefs st !! II = None /\ Locs = (0%N, 0%N)))
      as [HIa HIb].
    { destruct HI2 as [->|[II ->]]; [split; [done|intros; by left]|].
      apply subscript_extends. }
    assert (EndIfs st ⊆ EndIfs st2
            /\ forall IfLoc Loc,
                 EndIfs st2 !! IfLoc = Some Loc ->
                 EndIfs st !! IfLoc = Some Loc
                 \/ (EndIfs st !! IfLoc = None /\ Loc = 0%N))
      as [HEa HEb].
    { destruct HE2 as [->|[k ->]]; [split; [done|intros; by left]|].
      apply subscript_extends. }
    split; [by etrans|]. split; [by etrans|]. split.
    + intros II Locs Hk. destruct (HIn _ _ Hk) as [Hk2|(Hnone & Hinv)].
      * destruct (HIb _ _ Hk2) as [?|[? ->]]; [by left|by right].
      * right. split; [|done].
        destruct (Ifndefs st !! II) as [v|] eqn:Hst; [|done].
        eapply lookup_weaken in Hst; [|exact HIa]. congruence.
    + intros IfLoc Loc Hk. destruct (HEn _ _ Hk) as [Hk2|(Hnone & Hinv)].
      * destruct (HEb _ _ Hk2) as [?|[? ->]]; [by left|by right].
      * right. split; [|done].
        destruct (EndIfs st !! IfLoc) as [v|] eqn:Hst; [|done].
        eapply lookup_weaken in Hst; [|exact HEa]. congruence.
Qed.

End Untouched.

(** ** The added properties on the small translation units *)

(** [src/solo.h] in order: no diagnostic. *)
Example tidy_unit :
  translationUnit Tidy.SM Demo.Check Tidy.events emptyState
  = Done (tt, emptyState, []).
Proof. vm_compute. reflexivity. Qed.

Lemma files_hold_entered_user_files_witness :
  Files emptyState !! "include/foo/bar.h" = Some Demo.bar_h
  \/ exists Loc Prev,
       EvFileChanged Loc EnterFile C_User Prev ∈ Demo.barEvents
       /\ getFileEntryForID Demo.SM (getFileID Demo.SM Loc)
          = Some Demo.bar_h
       /\ "include/foo/bar.h" = cleanPath (FileEntry.getName Demo.bar_h).
Proof.
  apply (files_hold_entered_user_files Demo.SM Demo.barEvents emptyState
           Demo.barState []).
  - vm_compute. reflexivity.
  - vm_compute. reflexivity.
Defined.

Lemma files_last_entry_wins_witness :
  Files Demo.barState !! cleanPath (FileEntry.getName Demo.bar_h)
  = Some Demo.bar_h.
Proof.
  apply (files_last_entry_wins Demo.SM
           [EvFileChanged 1000 EnterFile C_User 0]
           [EvIfndef 1001 (mkToken Demo.BAR_H 1008) None;
            EvMacroDefined (mkToken Demo.BAR_H 1023)
                           (Demo.guardDirective 1023);
            EvEndif 1900 1001]
           1000 0 Demo.bar_h emptyState Demo.barState []).
  - vm_compute. reflexivity.
  - reflexivity.
  - intros Loc' Prev' FE' Hin.
    repeat (apply elem_of_cons in Hin as [Heq|Hin]; [discriminate|]).
    by apply elem_of_nil in Hin.
Defined.

Lemma ifndefs_last_write_wins_witness :
  Ifndefs Demo.barState !! Demo.BAR_H = Some (1001%N, 1008%N).
Proof.
  apply (ifndefs_last_write_wins Demo.SM
           [EvFileChanged 1000 EnterFile C_User 0]
           [EvMacroDefined (mkToken Demo.BAR_H 1023)
                           (Demo.guardDirective 1023);
            EvEndif 1900 1001]
           1001 (mkToken Demo.BAR_H 1008) emptyState Demo.barState []).
  - vm_compute. reflexivity.
  - intros Loc' Tok' Hin.
    repeat (apply elem_of_cons in Hin as [Heq|Hin]; [discriminate|]).
    by apply elem_of_nil in Hin.
Defined.

Lemma endifs_last_write_wins_witness :
  EndIfs Demo.barState !! 1001%N = Some 1900%N.
Proof.
  apply (endifs_last_write_wins Demo.SM
           [EvFileChanged 1000 EnterFile C_User 0;
            EvIfndef 1001 (mkToken Demo.BAR_H 1008) None;
            EvMacroDefined (mkToken Demo.BAR_H 1023)
                           (Demo.guardDirective 1023)]
           [] 1900 1001 emptyState Demo.barState []).
  - vm_compute. reflexivity.
  - intros Loc' IfLoc' Hin. by apply elem_of_nil in Hin.
Defined.

Lemma EndOfMainFile_diagnostics_witness :
  exists d1 d2,
    emitted (EndOfMainFile Demo.SM Demo.Check) Demo.barState
      = (d1 ++ d2)%list
    /\ Forall (fun d => styleDiag d \/ endifDiag d) d1
    /\ Forall (fun d => nonTopmostDiag d \/ missingDiag d) d2.
Proof.
  destruct (EndOfMainFile_diagnostics Demo.SM Demo.Check Demo.barState
              emptyState
              (emitted (EndOfMainFile Demo.SM Demo.Check) Demo.barState))
    as (d1 & d2 & Hds & Hd1 & Hd2 & _).
  - vm_compute. reflexivity.
  - by exists d1, d2.
Defined.

Lemma EndOfMainFile_diagnostics_bound_witness :
  (length (emitted (EndOfMainFile Demo.SM Demo.Check) Demo.barState)
   <= 2 * guardCount (Macros Demo.barState)
      + size (Files Demo.barState))%nat.
Proof.
  apply (EndOfMainFile_diagnostics_bound Demo.SM Demo.Check Demo.barState
           emptyState).
  vm_compute. reflexivity.
Defined.

Lemma declined_fix_is_silent_witness :
  emitted (for_each (Macros Demo.barState)
                    (visitMacro Demo.SM Tidy.declining)) Demo.barState = []
  /\ Ifndefs Demo.barVisited = Ifndefs Demo.barState
  /\ EndIfs Demo.barVisited = EndIfs Demo.barState
  /\ Macros Demo.barVisited = Macros Demo.barState.
Proof.
  apply (declined_fix_is_silent Demo.SM Tidy.declining
           (Macros Demo.barState) Demo.barState Demo.barVisited).
  - reflexivity.
  - vm_compute. reflexivity.
Defined.

Lemma conforming_guard_is_silent_witness :
  visitMacro Tidy.SM Demo.Check Tidy.guard Tidy.state
  = Done (tt, setFiles (delete "src/solo.h" (Files Tidy.state)) Tidy.state,
          []).
Proof.
  apply (conforming_guard_is_silent Tidy.SM Demo.Check Tidy.guard Tidy.state
           Demo.solo_h 2001 2008 2900).
  - reflexivity.
  - reflexivity.
  - vm_compute. reflexivity.
  - vm_compute. reflexivity.
  - left. reflexivity.
  - intros _. left. reflexivity.
Defined.

Lemma endif_fix_satisfies_check_witness :
  checkEndifComment Tidy.SM 2900 "SOLO_H" Tidy.state
  = Done (tt, Tidy.state, []).
Proof.
  apply (endif_fix_satisfies_check Tidy.SM 2900 "SOLO_H" EmptyString).
  - reflexivity.
  - reflexivity.
Defined.

Lemma first_loop_keeps_recorded_locations_witness :
  Ifndefs Demo.unterminated
    ⊆ Ifndefs (mkState [Demo.barGuard] ∅ {[ Demo.BAR_H := (1001%N, 1008%N) ]}
                       {[ 1001%N := 0%N ]})
  /\ EndIfs Demo.unterminated ⊆ {[ 1001%N := 0%N ]}.
Proof.
  destruct (first_loop_keeps_recorded_locations Demo.SM Demo.Check
              (Macros Demo.unterminated) Demo.unterminated
              (mkState [Demo.barGuard] ∅ {[ Demo.BAR_H := (1001%N, 1008%N) ]}
                       {[ 1001%N := 0%N ]})
              (emitted (for_each (Macros Demo.unterminated)
                                 (visitMacro Demo.SM Demo.Check))
                       Demo.unterminated))
    as (HI & HE & _).
  - vm_compute. reflexivity.
  - split; [exact HI|exact HE].
Defined.

(** ** Which records the first loop keeps, and when it stops *)

Section Survivors.

Variable SM : SourceManager.
Variable Check : HeaderGuardCheck.

(** X17.  The first loop of [EndOfMainFile] erases nothing else: the
    record of a path is left as it was when no macro used as a header
    guard is defined in a file of that path. *)
Theorem first_loop_keeps_other_records l st st1 ds FileName :
  for_each l (visitMacro SM Check) st = Done (tt, st1, ds) ->
  (forall MacroEntry FE,
     MacroEntry ∈ l ->
     isUsedForHeaderGuard (getMacroInfo MacroEntry.2) = true ->
     guardFile SM MacroEntry = Some FE ->
     cleanPath (FileEntry.getName FE) <> FileName) ->
  Files st1 !! FileName = Files st !! FileName.
Proof.
  revert st st1 ds. induction l as [|e l IH]; intros st st1 ds Hrun Hother.
  - by injection Hrun as <- _.
  - simpl in Hrun.
    apply bind_Done_inv in Hrun as ([] & st2 & da & db & He & Hl & ->).
    rewrite (IH _ _ _ Hl)
      by (intros e' FE' Hin; apply (Hother e' FE'); by right).
    apply visitMacro_Done_inv in He as (_ & _ & Hfiles).
    destruct (isUsedForHeaderGuard (getMacroInfo e.2)) eqn:Hg.
    + destruct Hfiles as (FE & Hfe & ->). apply lookup_delete_ne.
      apply (Hother e FE); [left|done|done].
    + by destruct Hfiles as [-> _].
Qed.

(** X18.  [EndOfMainFile] stops at a null file entry exactly when some
    recorded macro is used as a header guard and the file of its
    definition location has no entry; otherwise it runs to its end. *)
Theorem EndOfMainFile_stops_iff st :
  EndOfMainFile SM Check st = NullDereference
  <-> exists MacroEntry,
        MacroEntry ∈ Macros st
        /\ isUsedForHeaderGuard (getMacroInfo MacroEntry.2) = true
        /\ guardFile SM MacroEntry = None.
Proof.
  rewrite EndOfMainFile_eq. split.
  - destruct (for_each (Macros st) (visitMacro SM Check) st)
      as [[[[] st1] d1]|] eqn:Hloop; [discriminate|].
    intros _. by apply (first_loop_null SM Check _ st).
  - intros (e & Hin & Hg & Hfe).
    by rewrite (first_loop_stops SM Check _ st e Hin Hg Hfe).
Qed.

End Survivors.

Lemma first_loop_keeps_other_records_witness :
  Files (mkState [Demo.barGuard] {[ "src/solo.h" := Demo.solo_h ]}
                 {[ Demo.BAR_H := (1001%N, 1008%N) ]} {[ 1001%N := 1900%N ]})
    !! "src/solo.h"
  = Files (mkState [Demo.barGuard]
                   {[ "include/foo/bar.h" := Demo.bar_h;
                      "src/solo.h" := Demo.solo_h ]}
                   {[ Demo.BAR_H := (1001%N, 1008%N) ]}
                   {[ 1001%N := 1900%N ]})
      !! "src/solo.h".
Proof.
  eapply (first_loop_keeps_other_records Demo.SM Demo.Check [Demo.barGuard]).
  - vm_compute. reflexivity.
  - intros MacroEntry FE Hin _ Hfe.
    apply list_elem_of_singleton in Hin. subst MacroEntry.
    vm_compute in Hfe. injection Hfe as <-. vm_compute. discriminate.
Defined.
